(** * GEO analysis pipeline: a shallow embedding of the scoring core

    The TypeScript sources embedded here are
    - [keywordExtractor]  (STOP_WORDS, extractSeedKeywords),
    - [searchQuestions]   (fetchFromTavily, dedupeQuestions, fetchSearchQuestions),
    - [runAnalysis]       (runAnalysis, calculateQuestionCoverage,
                           calculateStructureScore),
    - [htmlAnalyzer]      (normalizeUrl),
    - [analysisTypes]     (the records).

    A JavaScript string is a sequence of UTF-16 code units and is modelled
    as [list N].  [String.prototype.length] is [length],
    [substring(0, n)] is [take n].  Regular expressions without the [u] flag
    work on code units, which is how they are modelled below.

    What the platform provides is either modelled from its standard
    (whitespace, [split], [replace], [trim], [encodeURIComponent], the
    stable [sort], insertion-ordered [Map]) or taken as a parameter
    ([toLowerCase], the [URL] classes, fetching and parsing the page).

    The file has the definitions first, then the notions used to state
    the properties, then the lemmas and, last, one theorem per claim. *)

From Stdlib Require Import ZArith NArith QArith Qround Lia Lqa Ascii String.
From Stdlib Require Import Sorting.Sorted.
From Stdlib Require PrimFloat FloatOps Uint63.
From stdpp Require Import base option list sorting gmap sets.

Open Scope N_scope.

Abbreviation jsstring := (list N).

(** ** Literals

    String literals of the sources are written as UTF-8 text and decoded
    to UTF-16 code units. *)

Module Utf.

Fixpoint bytes (s : string) : list N :=
  match s with
  | EmptyString => []
  | String a r => N_of_ascii a :: bytes r
  end.

(** The six low bits of a continuation byte. *)
Definition cont (b : N) : N := N.land b 0x3F.

(** UTF-8 octets to Unicode code points (well-formed input is assumed,
    as produced by a text editor). *)
Fixpoint decode (bs : list N) : list N :=
  match bs with
  | [] => []
  | b0 :: r0 =>
    if b0 <? 0x80 then b0 :: decode r0
    else match r0 with
    | [] => [0xFFFD]
    | b1 :: r1 =>
      if b0 <? 0xE0 then (N.land b0 0x1F * 64 + cont b1) :: decode r1
      else match r1 with
      | [] => [0xFFFD]
      | b2 :: r2 =>
        if b0 <? 0xF0
        then (N.land b0 0x0F * 4096 + cont b1 * 64 + cont b2) :: decode r2
        else match r2 with
        | [] => [0xFFFD]
        | b3 :: r3 =>
          (N.land b0 0x07 * 262144 + cont b1 * 4096 + cont b2 * 64 + cont b3)
            :: decode r3
        end
      end
    end
  end.

(** A code point as one or two UTF-16 code units. *)
Definition units (cp : N) : list N :=
  if cp <? 0x10000 then [cp]
  else [0xD800 + N.shiftr (cp - 0x10000) 10; 0xDC00 + N.land (cp - 0x10000) 0x3FF].

Definition utf16 (s : string) : jsstring := decode (bytes s) ≫= units.

End Utf.

Arguments Utf.utf16 s%_string.
Abbreviation js := Utf.utf16.

(** ** Character classes *)

(** [\s] of ECMAScript regular expressions, which is also the set of code
    units removed by [String.prototype.trim]: WhiteSpace and
    LineTerminator. *)
Definition isWhiteSpace (c : N) : bool :=
  ((9 <=? c) && (c <=? 13)) || (c =? 0x20) || (c =? 0xA0) || (c =? 0x1680)
  || ((0x2000 <=? c) && (c <=? 0x200A)) || (c =? 0x2028) || (c =? 0x2029)
  || (c =? 0x202F) || (c =? 0x205F) || (c =? 0x3000) || (c =? 0xFEFF).

(** [\d], that is [0-9]. *)
Definition isDigit (c : N) : bool := (0x30 <=? c) && (c <=? 0x39).

Definition SP : N := 0x20.

(** ** String primitives *)

(** [s.split(/\s+/)]: the pieces between the maximal whitespace runs.  A
    run at the start or at the end leaves an empty piece there, and the
    empty string splits into one empty piece. *)
Fixpoint split_ws (s : jsstring) : list jsstring :=
  match s with
  | [] => [[]]
  | c :: r =>
    if isWhiteSpace c then
      match r with
      | c' :: _ => if isWhiteSpace c' then split_ws r else [] :: split_ws r
      | [] => [[]; []]
      end
    else
      match split_ws r with
      | p :: ps => (c :: p) :: ps
      | [] => [[c]]
      end
  end.

(** [s.replace(/[C]+/g, ' ')] for a character class [C]: every maximal
    run of code units of the class becomes one space. *)
Fixpoint replace_runs (C : N → bool) (s : jsstring) : jsstring :=
  match s with
  | [] => []
  | c :: r =>
    if C c then
      match r with
      | c' :: _ => if C c' then replace_runs C r else SP :: replace_runs C r
      | [] => [SP]
      end
    else c :: replace_runs C r
  end.

(** The pieces of [s] between the code units outside the class [C]. *)
Fixpoint fields (C : N → bool) (s : jsstring) : list jsstring :=
  match s with
  | [] => [[]]
  | c :: r =>
    if C c then
      match fields C r with
      | p :: ps => (c :: p) :: ps
      | [] => [[c]]
      end
    else [] :: fields C r
  end.

Fixpoint trimStart (s : jsstring) : jsstring :=
  match s with
  | c :: r => if isWhiteSpace c then trimStart r else s
  | [] => []
  end.

Definition trimEnd (s : jsstring) : jsstring := reverse (trimStart (reverse s)).

(** [s.trim()] *)
Definition trim (s : jsstring) : jsstring := trimEnd (trimStart s).

(** [parts.join(' ')] *)
Fixpoint join_sp (parts : list jsstring) : jsstring :=
  match parts with
  | [] => []
  | [p] => p
  | p :: ps => p ++ SP :: join_sp ps
  end.

(** [hay.includes(x)] on arrays of strings. *)
Definition includes (hay : list jsstring) (x : jsstring) : bool :=
  bool_decide (x ∈ hay).

(** [String.prototype.toLowerCase] restricted to the ASCII range: the
    Unicode case mapping sends [A-Z] to [a-z] and fixes every other ASCII
    code unit.  Hangul syllables have no case and are fixed as well. *)
Definition lowerUnit (c : N) : N :=
  if (0x41 <=? c) && (c <=? 0x5A) then c + 0x20 else c.

Definition lowerAscii (s : jsstring) : jsstring := lowerUnit <$> s.

(** What is known of the platform's [toLowerCase] on ASCII text. *)
Definition ascii_exact (lower : jsstring → jsstring) : Prop :=
  ∀ s, Forall (λ c, c < 128) s → lower s = lowerAscii s.

(** ** Data model ([analysisTypes]) *)

Record AnalysisMeta := {
  title : option jsstring;
  description : option jsstring;
  keywords : option jsstring;
  ogTitle : option jsstring;
  ogDescription : option jsstring;
  canonical : option jsstring;
}.

(** A [number] that is a quotient of two counts is kept as an exact
    rational; binary64 division is correctly rounded and monotone, so the
    order of such quotients and the values 0 and 1 are those of the
    rationals.  (The one place where binary64 rounding could matter, the
    score composition, is treated in double precision in [F64].) *)
Record SeedKeyword := { value : jsstring; score : Q }.

Inductive SearchSource := google | naver | community.

Record SearchQuestion := {
  source : SearchSource;
  text : jsstring;
  url : option jsstring;
}.

Record GeoScores := {
  structureScore : Z;
  questionCoverage : Q;
  finalScore : Z;
}.

(** Truthiness of a [string | null] value: neither null nor empty. *)
Definition truthy (o : option jsstring) : bool :=
  match o with
  | Some (_ :: _) => true
  | _ => false
  end.

(** ** [Map<string, number>]

    A JavaScript [Map] iterates in insertion order, and [set] on a key
    that is present keeps its position: an association list. *)
Module JsMap.

Definition t := list (jsstring * Z).

Fixpoint get (m : t) (k : jsstring) : option Z :=
  match m with
  | [] => None
  | (k', v) :: r => if decide (k' = k) then Some v else get r k
  end.

Fixpoint set (m : t) (k : jsstring) (v : Z) : t :=
  match m with
  | [] => [(k, v)]
  | (k', v') :: r =>
    if decide (k' = k) then (k', v) :: r else (k', v') :: set r k v
  end.

(** [Array.from(m.entries())] *)
Definition entries (m : t) : list (jsstring * Z) := m.

End JsMap.

(** ** [Array.prototype.sort]

    The sort is stable (ECMAScript 2019).  With a consistent comparator
    the result is therefore determined; it is computed here by a stable
    insertion sort.  Only the sign of the comparator's result is used. *)
Section ArraySort.
Context {A : Type} (cmp : A → A → Z).

Fixpoint sort_insert (x : A) (l : list A) : list A :=
  match l with
  | [] => [x]
  | y :: r => if decide (cmp x y ≤ 0)%Z then x :: l else y :: sort_insert x r
  end.

Definition Array_sort (l : list A) : list A := foldr sort_insert [] l.
End ArraySort.

(** ** [keywordExtractor] *)

Definition STOP_WORDS : gset jsstring := list_to_set [
  js "그리고"; js "하지만"; js "그러나"; js "그러면서"; js "또는"; js "또한";
  js "이것"; js "저것"; js "그것"; js "있는"; js "하는"; js "되는"; js "통해";
  js "대한"; js "위한"; js "같은"; js "많은";
  js "the"; js "is"; js "are"; js "and"; js "or"; js "for"; js "with";
  js "this"; js "that"; js "from"; js "into"; js "about"; js "your"; js "our";
  js "has"; js "have"; js "can"; js "will"; js "been"; js "more"; js "when";
  js "they"; js "them"; js "their"; js "what"; js "which"
].

(** The class [0-9a-zA-Z가-힣]. *)
Definition isKeywordChar (c : N) : bool :=
  isDigit c || ((0x61 <=? c) && (c <=? 0x7A)) || ((0x41 <=? c) && (c <=? 0x5A))
  || ((0xAC00 <=? c) && (c <=? 0xD7A3)).

(** [/^\d+$/.test(token)] *)
Definition allDigits (token : jsstring) : bool :=
  bool_decide (token ≠ []) && forallb isDigit token.

(** The callback of the second [filter] of [extractSeedKeywords]. *)
Definition keepToken (token : jsstring) : bool :=
  if decide (length token = 1%nat) then false
  else if allDigits token then false
  else if decide (30 ≤ length token)%nat then false
  else true.

(** [if (x) parts.push(x)] *)
Definition pushed (o : option jsstring) : list jsstring :=
  if truthy o then option_list o else [].

(** Step (1) of [extractSeedKeywords]: the parts that are joined. *)
Definition textParts (meta : AnalysisMeta) (headings : list jsstring)
    (contentText : jsstring) : list jsstring :=
  pushed (title meta) ++ pushed (ogTitle meta) ++ pushed (description meta)
  ++ pushed (ogDescription meta) ++ headings
  ++ (if truthy (Some contentText) then [take 800 contentText] else []).

Section Pipeline.

(** [String.prototype.toLowerCase] is the platform's full Unicode case
    mapping; the development is parametric in it. *)
Context (toLowerCase : jsstring → jsstring).

(** Steps (2) and (3) of [extractSeedKeywords]. *)
Definition tokenize (rawText : jsstring) : list jsstring :=
  let normalized := toLowerCase rawText in
  let cleaned := replace_runs (λ c, negb (isKeywordChar c)) normalized in
  let tokens := filter (λ token, (0 < length token)%nat) (split_ws cleaned) in
  let tokens := filter (λ token, keepToken token) tokens in
  filter (λ token, token ∉ STOP_WORDS) tokens.

(** Step (4): the loop filling [frequencyMap]. *)
Definition countTokens (tokens : list jsstring) : JsMap.t :=
  foldl (λ frequencyMap token,
           JsMap.set frequencyMap token
             (default 0%Z (JsMap.get frequencyMap token) + 1)%Z)
        [] tokens.

(** Step (5): ranking and scoring. *)
Definition rankEntries (frequencyMap : JsMap.t) : list SeedKeyword :=
  let entries := Array_sort (λ a b, (b.2 - a.2)%Z) (JsMap.entries frequencyMap) in
  let topEntries := take 10 entries in
  let maxCount := match topEntries with e :: _ => e.2 | [] => 1%Z end in
  (λ e, {| value := e.1; score := (inject_Z e.2 / inject_Z maxCount)%Q |})
    <$> topEntries.

Definition extractSeedKeywords (meta : AnalysisMeta) (headings : list jsstring)
    (contentText : jsstring) : list SeedKeyword :=
  let rawText := join_sp (textParts meta headings contentText) in
  if decide (trim rawText = []) then []
  else
    let tokens := tokenize rawText in
    if decide (length tokens = 0%nat) then []
    else rankEntries (countTokens tokens).

End Pipeline.

(** ** [encodeURIComponent]

    ECMAScript's [Encode] with the unreserved set [A-Za-z0-9-_.!~*'()]:
    every other code point is written as the percent-escaped octets of
    its UTF-8 encoding, and an unpaired surrogate raises [URIError]
    ([None]). *)
Module Uri.

Definition isAlnum (c : N) : bool :=
  isDigit c || ((0x41 <=? c) && (c <=? 0x5A)) || ((0x61 <=? c) && (c <=? 0x7A)).

Definition isUnreserved (c : N) : bool :=
  isAlnum c || bool_decide (c ∈ js "-_.!~*'()").

Definition isLead (c : N) : bool := (0xD800 <=? c) && (c <=? 0xDBFF).
Definition isTrail (c : N) : bool := (0xDC00 <=? c) && (c <=? 0xDFFF).

Definition hexDigit (n : N) : N := if n <? 10 then 0x30 + n else 0x41 + (n - 10).

Definition escape (octet : N) : jsstring :=
  [0x25; hexDigit (octet / 16); hexDigit (octet mod 16)].

Definition utf8 (cp : N) : list N :=
  if cp <? 0x80 then [cp]
  else if cp <? 0x800 then [0xC0 + cp / 64; 0x80 + cp mod 64]
  else if cp <? 0x10000
    then [0xE0 + cp / 4096; 0x80 + (cp / 64) mod 64; 0x80 + cp mod 64]
  else [0xF0 + cp / 262144; 0x80 + (cp / 4096) mod 64;
        0x80 + (cp / 64) mod 64; 0x80 + cp mod 64].

Definition escaped (cp : N) : jsstring := utf8 cp ≫= escape.

Fixpoint encodeURIComponent (s : jsstring) : option jsstring :=
  match s with
  | [] => Some []
  | c :: r =>
    if isUnreserved c then (c ::.) <$> encodeURIComponent r
    else if isTrail c then None
    else if isLead c then
      match r with
      | c2 :: r2 =>
        if isTrail c2
        then (escaped ((c - 0xD800) * 0x400 + (c2 - 0xDC00) + 0x10000) ++.)
               <$> encodeURIComponent r2
        else None
      | [] => None
      end
    else (escaped c ++.) <$> encodeURIComponent r
  end.

End Uri.

(** ** [searchQuestions] *)

(** [fetchFromTavily]: the mock provider.  The three questions are built
    inside the [try]; an exception there (only [encodeURIComponent] can
    raise one) is caught and the empty array is returned. *)
Definition fetchFromTavily (keyword : jsstring) (source : SearchSource)
    : list SearchQuestion :=
  match Uri.encodeURIComponent keyword with
  | None => []
  | Some q =>
    let url := Some (js "https://example.com/search?q=" ++ q) in
    [ {| source := source;
         text := keyword ++ js "는 얼마나 자주 교체해야 하나요?";
         url := url |};
      {| source := source;
         text := keyword ++ js " 비용은 어느 정도인가요?";
         url := url |};
      {| source := source;
         text := keyword ++ js "를 선택할 때 고려해야 할 점은 무엇인가요?";
         url := url |} ]
  end.

(** The sign of a rational, as the sort reads a comparator's result. *)
Definition Qsign (q : Q) : Z := Z.sgn (Qnum q).

Section Questions.
Context (toLowerCase : jsstring → jsstring).

(** [question.text.toLowerCase().replace(/\s+/g, ' ').trim()] *)
Definition normalizedText (t : jsstring) : jsstring :=
  trim (replace_runs isWhiteSpace (toLowerCase t)).

(** One iteration of the loop of [dedupeQuestions] on the state
    ([seen], [dedupedQuestions]). *)
Definition dedupeStep (st : gset jsstring * list SearchQuestion)
    (question : SearchQuestion) : gset jsstring * list SearchQuestion :=
  let key := normalizedText (text question) in
  if decide (key ∈ st.1) then st
  else ({[ key ]} ∪ st.1, st.2 ++ [question]).

Definition dedupeQuestions (questions : list SearchQuestion)
    : list SearchQuestion :=
  (foldl dedupeStep (∅, []) questions).2.

(** [fetchSearchQuestions(seedKeywords, maxPerKeyword = 5)].  The body
    never reads [maxPerKeyword]. *)
Definition fetchSearchQuestions (seedKeywords : list SeedKeyword)
    (maxPerKeyword : Z) : list SearchQuestion :=
  if decide (length seedKeywords = 0%nat) then []
  else
    let sortedKeywords :=
      Array_sort (λ a b, Qsign (score b - score a)%Q) seedKeywords in
    let topKeywords := take 5 sortedKeywords in
    let allQuestions :=
      topKeywords ≫= (λ keyword, fetchFromTavily (value keyword) google) in
    let dedupedQuestions := dedupeQuestions allQuestions in
    filter (λ q, (5 < length (text q))%nat) dedupedQuestions.

(** ** [runAnalysis] *)

(** The tokenization of [calculateQuestionCoverage]:
    [s.toLowerCase().split(/\s+/).filter(token => token.length >= 2)]. *)
Definition coverageTokens (s : jsstring) : list jsstring :=
  filter (λ token, (2 ≤ length token)%nat) (split_ws (toLowerCase s)).

(** The inner loop: [isCovered] after the scan of [pageQuestions], which
    stops at the first page question with a non-empty intersection. *)
Fixpoint isCovered (searchTokens : list jsstring) (pageQuestions : list jsstring)
    : bool :=
  match pageQuestions with
  | [] => false
  | pageQ :: rest =>
    let pageTokens := coverageTokens pageQ in
    let intersection := filter (λ token, includes pageTokens token) searchTokens in
    if decide (1 ≤ length intersection)%nat then true
    else isCovered searchTokens rest
  end.

(** The outer loop: [coveredCount] at its end. *)
Definition coveredCount (pageQuestions : list jsstring)
    (searchQuestions : list SearchQuestion) : Z :=
  foldl (λ coveredCount searchQ,
           if isCovered (coverageTokens (text searchQ)) pageQuestions
           then (coveredCount + 1)%Z else coveredCount)
        0%Z searchQuestions.

Definition calculateQuestionCoverage (pageQuestions : list jsstring)
    (searchQuestions : list SearchQuestion) : Q :=
  if decide (length searchQuestions = 0%nat) then 0%Q
  else (inject_Z (coveredCount pageQuestions searchQuestions)
        / inject_Z (Z.of_nat (length searchQuestions)))%Q.

End Questions.

(** [o && o.trim().length > 0] *)
Definition presentNonBlank (o : option jsstring) : bool :=
  match o with
  | Some s => truthy o && bool_decide (0 < length (trim s))%nat
  | None => false
  end.

Definition calculateStructureScore (meta : AnalysisMeta) (headings : list jsstring)
    (pageQuestions : list jsstring) : Z :=
  let score := 40%Z in
  let score := if presentNonBlank (title meta) then (score + 10)%Z else score in
  let score := if presentNonBlank (description meta) then (score + 10)%Z else score in
  let score := if decide (2 ≤ length headings)%nat then (score + 10)%Z else score in
  let score := if decide (3 ≤ length pageQuestions)%nat then (score + 10)%Z else score in
  Z.min 100 (Z.max 0 score).

(** [Math.round] on exact values: the nearest integer, a tie going to the
    larger one. *)
Definition Math_round (x : Q) : Z := Qfloor (x + (1 # 2))%Q.

(** Step 5 of [runAnalysis] in exact arithmetic. *)
Definition composeScores (structureScore : Z) (questionCoverage : Q) : GeoScores :=
  let questionCoverageScore := (questionCoverage * 100)%Q in
  let finalScore :=
    Math_round (inject_Z structureScore * 0.4 + questionCoverageScore * 0.6)%Q in
  {| structureScore := structureScore;
     questionCoverage := questionCoverageScore;
     finalScore := finalScore |}.

(** ** The score composition in double precision

    [number] is IEEE 754 binary64.  The composition multiplies by the
    inexact constants [0.4] and [0.6], so it is also embedded with the
    kernel's binary64 operations, which round as JavaScript does. *)
Module F64.

Import PrimFloat.
#[local] Set Warnings "-inexact-float".

(** An integer-valued [number]; exact below 2^53. *)
Definition ofZ (z : Z) : PrimFloat.float := PrimFloat.of_uint63 (Uint63.of_Z z).

(** [Math.round] of a finite double, computed on its exact value
    [m * 2^e]; [None] stands for NaN and the infinities, which
    [Math.round] returns unchanged. *)
Definition Math_round (x : PrimFloat.float) : option Z :=
  match FloatOps.Prim2SF x with
  | SpecFloat.S754_zero _ => Some 0%Z
  | SpecFloat.S754_finite s m e =>
    let n := if s then Z.neg m else Z.pos m in
    Some (if (0 <=? e)%Z then n * 2 ^ e
          else (2 * n + 2 ^ (- e)) / 2 ^ (1 - e))%Z
  | _ => None
  end.

(** [coveredCount / totalSearchQuestions], with the early return. *)
Definition questionCoverage (coveredCount totalSearchQuestions : Z)
    : PrimFloat.float :=
  if decide (totalSearchQuestions = 0%Z) then 0%float
  else (ofZ coveredCount / ofZ totalSearchQuestions)%float.

(** Lines 188 and 189 of [runAnalysis]. *)
Definition finalScore (structureScore : Z) (questionCoverage : PrimFloat.float)
    : option Z :=
  let questionCoverageScore := (questionCoverage * 100)%float in
  Math_round (ofZ structureScore * 0.4 + questionCoverageScore * 0.6)%float.

End F64.

(** ** [htmlAnalyzer]: [normalizeUrl]

    [URL] and [URLSearchParams] belong to the platform.  [normalizeUrl] is
    written against their interface; [URL_new] answers [None] where the
    constructor throws. *)

Class UrlPlatform := {
  URL : Type;
  URL_new : jsstring → option URL;
  URL_set_protocol : URL → jsstring → URL;
  URL_hostname : URL → jsstring;
  URL_set_hostname : URL → jsstring → URL;
  URL_search : URL → jsstring;
  URL_set_search : URL → jsstring → URL;
  URL_pathname : URL → jsstring;
  URL_toString : URL → jsstring;
  (** [new URLSearchParams(s)] as its list of name-value pairs, and
      [params.toString()]. *)
  URLSearchParams_new : jsstring → list (jsstring * jsstring);
  URLSearchParams_toString : list (jsstring * jsstring) → jsstring;
}.

Definition startsWith (s prefix : jsstring) : bool :=
  bool_decide (take (length prefix) s = prefix).

Definition endsWith (s suffix : jsstring) : bool :=
  bool_decide (length suffix ≤ length s)%nat
  && bool_decide (drop (length s - length suffix) s = suffix).

(** [params.delete(key)]: every pair of that name goes. *)
Definition URLSearchParams_delete (params : list (jsstring * jsstring))
    (key : jsstring) : list (jsstring * jsstring) :=
  filter (λ p, p.1 ≠ key) params.

Definition normalizeUrl `{UrlPlatform} (url : jsstring) : jsstring :=
  match URL_new url with
  | None => url
  | Some urlObj =>
    let urlObj := URL_set_protocol urlObj (js "https:") in
    (* hostname.replace(/^www\./, '') *)
    let hostname := URL_hostname urlObj in
    let urlObj :=
      URL_set_hostname urlObj
        (if startsWith hostname (js "www.") then drop 4 hostname else hostname) in
    let params := URLSearchParams_new (URL_search urlObj) in
    let keysToDelete := filter (λ key, startsWith key (js "utm_")) params.*1 in
    let params := foldl URLSearchParams_delete params keysToDelete in
    let urlObj := URL_set_search urlObj (URLSearchParams_toString params) in
    let normalized := URL_toString urlObj in
    if endsWith normalized (js "/") && bool_decide (URL_pathname urlObj ≠ js "/")
    then take (length normalized - 1) normalized
    else normalized
  end.

(** *** A model of the platform on plain URLs

    The WHATWG URL Standard, restricted to URLs
    [scheme:][//]host[/path][?query][#fragment] whose scheme is special
    and not [file], whose host is a lower- or upper-case domain of
    letters, digits, [-] and [.] that does not end in a number, without
    credentials or port, and whose path, query and fragment use code
    units that the parser copies unchanged.  On these the functions below
    follow the standard; [parse] answers [None] on every other input,
    whether the standard rejects it or not, so this model says nothing
    about the others. *)
Module Whatwg.

Record UrlRecord := {
  scheme : jsstring;
  host : jsstring;
  path : list jsstring;
  query : option jsstring;
  fragment : option jsstring;
}.

Definition specialSchemes : list jsstring :=
  [js "http"; js "https"; js "ws"; js "wss"; js "ftp"].

Definition isAlpha (c : N) : bool :=
  ((0x41 <=? c) && (c <=? 0x5A)) || ((0x61 <=? c) && (c <=? 0x7A)).

Definition isSlash (c : N) : bool := (c =? 0x2F) || (c =? 0x5C).

Definition isTabOrNewline (c : N) : bool := (c =? 9) || (c =? 10) || (c =? 13).

Fixpoint skipWhile (P : N → bool) (s : jsstring) : jsstring :=
  match s with
  | c :: r => if P c then skipWhile P r else s
  | [] => []
  end.

(** The prefix before the first code unit satisfying [P], and the rest
    from that code unit on. *)
Fixpoint break (P : N → bool) (s : jsstring) : jsstring * jsstring :=
  match s with
  | c :: r => if P c then ([], s) else let '(a, b) := break P r in (c :: a, b)
  | [] => ([], [])
  end.

(** Leading and trailing C0 controls and spaces are stripped, then
    tabs and newlines are removed. *)
Definition cleanInput (input : jsstring) : jsstring :=
  let isC0OrSpace := λ c, c <=? 0x20 in
  let s := reverse (skipWhile isC0OrSpace (reverse (skipWhile isC0OrSpace input))) in
  filter (λ c, isTabOrNewline c = false) s.

Definition validScheme (s : jsstring) : bool :=
  match s with
  | c :: r =>
    isAlpha c
    && forallb (λ c, Uri.isAlnum c || bool_decide (c ∈ js "+-.")) r
  | [] => false
  end.

(** Code units that the path, query and fragment states copy. *)
Definition isPlain (c : N) : bool :=
  Uri.isAlnum c || bool_decide (c ∈ js "-._~!$&()*+,;=:@").

(** A domain of the fragment: not empty, letters, digits, [-] and [.],
    no label that starts with a digit (a host that ends in a number is
    an IPv4 address) or with [xn--]. *)
Definition parseHost (input : jsstring) : option jsstring :=
  let h := lowerAscii input in
  let labels := fields (λ c, negb (c =? 0x2E)) h in
  if bool_decide (input ≠ [])
     && forallb (λ c, Uri.isAlnum c || (c =? 0x2D) || (c =? 0x2E)) input
     && forallb (λ l, negb (startsWith l (js "xn--"))
                      && match l with c :: _ => negb (isDigit c) | [] => true end)
          labels
  then Some h else None.

(** The path state on the segments of a path without percent signs:
    [..] removes the last segment, [.] is skipped, and either of them
    as the last segment leaves an empty segment. *)
Fixpoint pathSegments (acc : list jsstring) (segs : list jsstring)
    : list jsstring :=
  match segs with
  | [] => acc
  | seg :: rest =>
    let last := bool_decide (rest = []) in
    let acc :=
      if decide (seg = js "..")
      then (if last then removelast acc ++ [[]] else removelast acc)
      else if decide (seg = js ".")
      then (if last then acc ++ [[]] else acc)
      else acc ++ [seg] in
    pathSegments acc rest
  end.

Definition parsePath (pathStr : jsstring) : list jsstring :=
  match pathStr with
  | [] => [[]]
  | _ :: r => pathSegments [] (fields (λ c, negb (isSlash c)) r)
  end.

Definition parse (input : jsstring) : option UrlRecord :=
  let s := cleanInput input in
  let '(sch, rest) := break (λ c, c =? 0x3A) s in
  match rest with
  | [] => None
  | _ :: afterColon =>
    let scheme := lowerAscii sch in
    if validScheme sch && bool_decide (scheme ∈ specialSchemes) then
      let '(authority, rest) :=
        break (λ c, isSlash c || (c =? 0x3F) || (c =? 0x23))
              (skipWhile isSlash afterColon) in
      let '(pathStr, rest) := break (λ c, (c =? 0x3F) || (c =? 0x23)) rest in
      let '(query, fragment) :=
        match rest with
        | c :: r =>
          if c =? 0x3F then
            let '(q, r') := break (λ c, c =? 0x23) r in
            (Some q, match r' with _ :: f => Some f | [] => None end)
          else (None, Some r)
        | [] => (None, None)
        end in
      match parseHost authority with
      | Some host =>
        if forallb (λ c, isPlain c || isSlash c) pathStr
           && forallb (λ c, isPlain c || bool_decide (c ∈ js "/?"))
                (default [] query ++ default [] fragment)
        then Some {| scheme := scheme; host := host; path := parsePath pathStr;
                     query := query; fragment := fragment |}
        else None
      | None => None
      end
    else None
  end.

(** The protocol setter: the value up to its first colon is the new
    scheme; a special URL only takes another special scheme. *)
Definition set_protocol (u : UrlRecord) (v : jsstring) : UrlRecord :=
  let sch := (break (λ c, c =? 0x3A) (filter (λ c, isTabOrNewline c = false) v)).1 in
  if validScheme sch && bool_decide (lowerAscii sch ∈ specialSchemes)
  then {| scheme := lowerAscii sch; host := host u; path := path u;
          query := query u; fragment := fragment u |}
  else u.

(** The hostname setter: a colon, an empty host or a host that does not
    parse leaves the URL unchanged. *)
Definition set_hostname (u : UrlRecord) (v : jsstring) : UrlRecord :=
  let '(buffer, rest) :=
    break (λ c, isSlash c || (c =? 0x3F) || (c =? 0x23) || (c =? 0x3A))
          (filter (λ c, isTabOrNewline c = false) v) in
  match rest, parseHost buffer with
  | 0x3A :: _, _ => u
  | _, Some h => {| scheme := scheme u; host := h; path := path u;
                    query := query u; fragment := fragment u |}
  | _, None => u
  end.

Definition pathname (u : UrlRecord) : jsstring :=
  path u ≫= λ seg, 0x2F :: seg.

Definition search (u : UrlRecord) : jsstring :=
  match query u with
  | None | Some [] => []
  | Some q => 0x3F :: q
  end.

(** Unicode code points of a string; an unpaired surrogate is replaced
    by U+FFFD, as the UTF-8 encoder does. *)
Fixpoint codePoints (s : jsstring) : list N :=
  match s with
  | [] => []
  | c :: r =>
    if Uri.isLead c then
      match r with
      | c2 :: r2 =>
        if Uri.isTrail c2
        then ((c - 0xD800) * 0x400 + (c2 - 0xDC00) + 0x10000) :: codePoints r2
        else 0xFFFD :: codePoints r
      | [] => [0xFFFD]
      end
    else if Uri.isTrail c then 0xFFFD :: codePoints r
    else c :: codePoints r
  end.

(** The special-query percent-encode set. *)
Definition inSpecialQuerySet (cp : N) : bool :=
  (cp <=? 0x20) || (0x7E <? cp) || bool_decide (cp ∈ [0x22; 0x23; 0x3C; 0x3E; 0x27]).

(** The search setter: the empty string removes the query; otherwise
    one leading [?] is dropped and the rest is percent-encoded. *)
Definition set_search (u : UrlRecord) (v : jsstring) : UrlRecord :=
  let q :=
    match v with
    | [] => None
    | c :: r =>
      let input := filter (λ c, isTabOrNewline c = false)
                          (if c =? 0x3F then r else v) in
      Some (codePoints input ≫= λ cp,
              if inSpecialQuerySet cp then Uri.escaped cp else Utf.units cp)
    end in
  {| scheme := scheme u; host := host u; path := path u;
     query := q; fragment := fragment u |}.

(** The URL serializer. *)
Definition toString (u : UrlRecord) : jsstring :=
  scheme u ++ js "://" ++ host u ++ pathname u
  ++ match query u with Some q => 0x3F :: q | None => [] end
  ++ match fragment u with Some f => 0x23 :: f | None => [] end.

(** [application/x-www-form-urlencoded] *)
Definition hexVal (c : N) : option N :=
  if isDigit c then Some (c - 0x30)
  else if (0x41 <=? c) && (c <=? 0x46) then Some (c - 0x41 + 10)
  else if (0x61 <=? c) && (c <=? 0x66) then Some (c - 0x61 + 10)
  else None.

Fixpoint percentDecode (bs : list N) : list N :=
  match bs with
  | [] => []
  | b :: r =>
    if b =? 0x25 then
      match r with
      | h1 :: h2 :: r2 =>
        match hexVal h1, hexVal h2 with
        | Some a, Some b' => (16 * a + b') :: percentDecode r2
        | _, _ => b :: percentDecode r
        end
      | _ => b :: percentDecode r
      end
    else b :: percentDecode r
  end.

Definition formDecode (s : jsstring) : jsstring :=
  let bytes := codePoints ((λ c, if c =? 0x2B then 0x20 else c) <$> s) ≫= Uri.utf8 in
  Utf.decode (percentDecode bytes) ≫= Utf.units.

Definition formEncode (s : jsstring) : jsstring :=
  codePoints s ≫= λ cp,
    if Uri.isAlnum cp || bool_decide (cp ∈ js "*-._") then [cp]
    else if cp =? 0x20 then [0x2B]
    else Uri.escaped cp.

Definition params_new (init : jsstring) : list (jsstring * jsstring) :=
  let s := match init with
           | c :: r => if c =? 0x3F then r else init
           | [] => []
           end in
  let sequences := filter (λ p, p ≠ []) (fields (λ c, negb (c =? 0x26)) s) in
  (λ sq, let '(name, rest) := break (λ c, c =? 0x3D) sq in
         (formDecode name, formDecode (tail rest))) <$> sequences.

Fixpoint params_toString (params : list (jsstring * jsstring)) : jsstring :=
  match params with
  | [] => []
  | [(n, v)] => formEncode n ++ 0x3D :: formEncode v
  | (n, v) :: ps => formEncode n ++ 0x3D :: formEncode v ++ 0x26 :: params_toString ps
  end.

Definition platform : UrlPlatform := {|
  URL := UrlRecord;
  URL_new := parse;
  URL_set_protocol := set_protocol;
  URL_hostname := host;
  URL_set_hostname := set_hostname;
  URL_search := search;
  URL_set_search := set_search;
  URL_pathname := pathname;
  URL_toString := toString;
  URLSearchParams_new := params_new;
  URLSearchParams_toString := params_toString;
|}.

End Whatwg.

(** What [extractMetaAndContent] returns. *)
Record Extracted := {
  ex_meta : AnalysisMeta;
  ex_headings : list jsstring;
  ex_contentText : jsstring;
  ex_pageQuestions : list jsstring;
}.

Record QuestionCluster := {
  topic : jsstring;
  representativeQuestion : jsstring;
  variants : list jsstring;
  coveredByPage : bool;
  evidence : list SearchQuestion;
}.

Record AnalysisResult := {
  res_url : jsstring;
  res_normalizedUrl : jsstring;
  res_meta : AnalysisMeta;
  res_seedKeywords : list SeedKeyword;
  res_pageQuestions : list jsstring;
  res_searchQuestions : list SearchQuestion;
  res_questionClusters : list QuestionCluster;
  res_scores : GeoScores;
}.

Section Run.
Context (toLowerCase : jsstring → jsstring).

(** Steps 3 and 4 of [runAnalysis], from what [extractMetaAndContent]
    returned. *)
Definition runSearchQuestions (meta : AnalysisMeta) (headings : list jsstring)
    (contentText : jsstring) : list SearchQuestion :=
  let seedKeywords := extractSeedKeywords toLowerCase meta headings contentText in
  fetchSearchQuestions toLowerCase seedKeywords 5.

(** Step 5 of [runAnalysis], in exact arithmetic. *)
Definition runScores (meta : AnalysisMeta) (headings : list jsstring)
    (contentText : jsstring) (pageQuestions : list jsstring) : GeoScores :=
  let searchQuestions := runSearchQuestions meta headings contentText in
  let structureScore := calculateStructureScore meta headings pageQuestions in
  let questionCoverage :=
    calculateQuestionCoverage toLowerCase pageQuestions searchQuestions in
  composeScores structureScore questionCoverage.

(** The [finalScore] of step 5 as binary64 arithmetic computes it. *)
Definition runFinalScore64 (meta : AnalysisMeta) (headings : list jsstring)
    (contentText : jsstring) (pageQuestions : list jsstring) : option Z :=
  let searchQuestions := runSearchQuestions meta headings contentText in
  let structureScore := calculateStructureScore meta headings pageQuestions in
  let questionCoverage :=
    F64.questionCoverage (coveredCount toLowerCase pageQuestions searchQuestions)
      (Z.of_nat (length searchQuestions)) in
  F64.finalScore structureScore questionCoverage.

(** [runAnalysis].  Fetching and parsing the page are external:
    [fetchHtml] answers [None] when the request fails, and the error is
    raised again. *)
Context `{UrlPlatform} {Html : Type}.
Context (fetchHtml : jsstring → option Html).
Context (extractMetaAndContent : Html → Extracted).

Definition runAnalysis (url : jsstring) : option AnalysisResult :=
  match fetchHtml url with
  | None => None
  | Some html =>
    let ex := extractMetaAndContent html in
    let meta := ex_meta ex in
    let headings := ex_headings ex in
    let contentText := ex_contentText ex in
    let pageQuestions := ex_pageQuestions ex in
    let seedKeywords := extractSeedKeywords toLowerCase meta headings contentText in
    let searchQuestions := fetchSearchQuestions toLowerCase seedKeywords 5 in
    let structureScore := calculateStructureScore meta headings pageQuestions in
    let questionCoverage :=
      calculateQuestionCoverage toLowerCase pageQuestions searchQuestions in
    let scores := composeScores structureScore questionCoverage in
    let normalizedUrl := normalizeUrl url in
    Some {| res_url := url;
            res_normalizedUrl := normalizedUrl;
            res_meta := meta;
            res_seedKeywords := seedKeywords;
            res_pageQuestions := pageQuestions;
            res_searchQuestions := searchQuestions;
            res_questionClusters := [];
            res_scores := scores |}
  end.

End Run.

(** ** Question detection ([searchQuestions], [htmlAnalyzer]) *)

(** The class [.!?] of the sentence separator. *)
Definition isTerminator (c : N) : bool := (c =? 0x2E) || (c =? 0x21) || (c =? 0x3F).

(** [text.split(/[.!?]\s+/)]: a separator is one terminator followed by
    a maximal whitespace run.  [skipping] holds while that run is being
    consumed. *)
Fixpoint split_sentences_from (skipping : bool) (s : jsstring) : list jsstring :=
  match s with
  | [] => [[]]
  | c :: r =>
    if skipping && isWhiteSpace c then split_sentences_from true r
    else if isTerminator c
            && match r with c' :: _ => isWhiteSpace c' | [] => false end
    then [] :: split_sentences_from true r
    else
      match split_sentences_from false r with
      | p :: ps => (c :: p) :: ps
      | [] => [[c]]
      end
  end.

Definition split_sentences (text : jsstring) : list jsstring :=
  split_sentences_from false text.

(** [hay.includes(needle)] on strings. *)
Fixpoint includesStr (hay needle : jsstring) : bool :=
  match hay with
  | [] => bool_decide (needle = [])
  | _ :: r => startsWith hay needle || includesStr r needle
  end.

Definition questionKeywords : list jsstring := [
  js "어떻게"; js "언제"; js "왜"; js "무엇"; js "가능"; js "방법";
  js "비용"; js "기간"; js "차이"; js "추천"; js "어디"; js "누가"
].

(** [hasQuestionMark || hasKeyword] *)
Definition looksLikeQuestion (sentence : jsstring) : bool :=
  includesStr sentence (js "?")
  || existsb (λ keyword, includesStr sentence keyword) questionKeywords.

(** [extractQuestionCandidatesFromText] of [searchQuestions]: the loop
    skips the sentences of length 5 or less and pushes the others that
    look like a question. *)
Definition extractQuestionCandidatesFromText (text : jsstring)
    (source : SearchSource) (url : option jsstring) : list SearchQuestion :=
  let sentences := trim <$> split_sentences text in
  foldl (λ questions sentence,
           if decide (length sentence ≤ 5)%nat then questions
           else if looksLikeQuestion sentence
           then questions ++ [ {| source := source; text := sentence; url := url |} ]
           else questions)
        [] sentences.

(** [extractQuestions] of [htmlAnalyzer]. *)
Definition extractQuestions (text : jsstring) : list jsstring :=
  let sentences :=
    filter (λ s, (10 < length s)%nat) (trim <$> split_sentences text) in
  foldl (λ questions sentence,
           if looksLikeQuestion sentence then questions ++ [sentence]
           else questions)
        [] sentences.

(** ** [extractMetaAndContent]

    The HTML parser is external.  [Dom] holds what its queries return on
    the loaded page: the text of the [title] elements, the [content] or
    [href] attribute of the first matching [meta] or [link] element
    ([None] when there is none), the text of each [h1], [h2] and [h3]
    element in document order, and the text of [body]. *)
Record Dom := {
  dom_title : jsstring;
  dom_description : option jsstring;
  dom_keywords : option jsstring;
  dom_ogTitle : option jsstring;
  dom_ogDescription : option jsstring;
  dom_canonical : option jsstring;
  dom_headings : list jsstring;
  dom_body : jsstring;
}.

(** [s || null] *)
Definition orNull (s : jsstring) : option jsstring :=
  match s with
  | [] => None
  | _ => Some s
  end.

(** [a?.trim() || null] *)
Definition trimmedOrNull (a : option jsstring) : option jsstring :=
  match a with
  | Some s => orNull (trim s)
  | None => None
  end.

Definition extractMetaAndContent (dom : Dom) : Extracted :=
  let meta := {|
    title := orNull (trim (dom_title dom));
    description := trimmedOrNull (dom_description dom);
    keywords := trimmedOrNull (dom_keywords dom);
    ogTitle := trimmedOrNull (dom_ogTitle dom);
    ogDescription := trimmedOrNull (dom_ogDescription dom);
    canonical := trimmedOrNull (dom_canonical dom);
  |} in
  let headings := filter (λ text, text ≠ []) (trim <$> dom_headings dom) in
  let bodyText := trim (replace_runs isWhiteSpace (dom_body dom)) in
  let contentText := take 5000 bodyText in
  let pageQuestions := extractQuestions contentText in
  {| ex_meta := meta;
     ex_headings := headings;
     ex_contentText := contentText;
     ex_pageQuestions := pageQuestions |}.

(** ** Notions used to state the properties *)

(** The distinct elements of a list, in the order of their first
    occurrence. *)
Fixpoint firstSeen (l : list jsstring) : list jsstring :=
  match l with
  | [] => []
  | x :: r => x :: filter (λ y, y ≠ x) (firstSeen r)
  end.

(** The position of the first occurrence of [k] in [l]. *)
Fixpoint firstIndex (l : list jsstring) (k : jsstring) : nat :=
  match l with
  | [] => 0
  | x :: r => if decide (x = k) then 0 else S (firstIndex r k)
  end.

(** The raw frequency of [k] in [l]. *)
Definition occurrences (l : list jsstring) (k : jsstring) : Z :=
  Z.of_nat (length (filter (λ t, t = k) l)).

(** [a] ranks before [b]: it is strictly more frequent, or as frequent
    and first seen earlier. *)
Definition precedes (tokens : list jsstring) (a b : jsstring) : Prop :=
  (occurrences tokens b < occurrences tokens a)%Z
  ∨ (occurrences tokens a = occurrences tokens b
     ∧ (firstIndex tokens a < firstIndex tokens b)%nat).

(** The maximal runs of code units of the class [C] in [s]. *)
Definition maximalRuns (C : N → bool) (s : jsstring) : list jsstring :=
  filter (λ p, p ≠ []) (fields C s).

(** The distinct tokens with their frequencies, in first-seen order. *)
Definition tally (tokens : list jsstring) : JsMap.t :=
  (λ k, (k, occurrences tokens k)) <$> firstSeen tokens.

(** Largest key first, and the order [T] among equal keys. *)
Definition ranked {A} (key : A → Z) (T : A → A → Prop) (a b : A) : Prop :=
  (key b < key a)%Z ∨ (key a = key b ∧ T a b).

(** The order of the entries of the frequency map of [tokens]. *)
Definition seenBefore (tokens : list jsstring) (a b : jsstring * Z) : Prop :=
  (firstIndex tokens a.1 < firstIndex tokens b.1)%nat.

(** The code units that are not whitespace. *)
Definition nonWhite (c : N) : bool := negb (isWhiteSpace c).

(** The stop words as the glossary of the specification enumerates them
    (the Korean words, then the English words), to be compared with
    [STOP_WORDS]. *)
Definition glossaryStopWords : list jsstring := [
  js "그리고"; js "하지만"; js "그러나"; js "그러면서"; js "또는"; js "또한";
  js "이것"; js "저것"; js "그것"; js "있는"; js "하는"; js "되는"; js "통해";
  js "대한"; js "위한"; js "같은"; js "많은";
  js "the"; js "is"; js "are"; js "and"; js "or"; js "for"; js "with";
  js "this"; js "that"; js "from"; js "into"; js "about"; js "your"; js "our";
  js "has"; js "have"; js "can"; js "will"; js "been"; js "more"; js "when";
  js "they"; js "them"; js "their"; js "what"; js "which"
].

(** ASCII digits, ASCII letters and Hangul syllables (U+AC00 to U+D7A3). *)
Definition keywordClass (c : N) : Prop :=
  0x30 ≤ c ≤ 0x39 ∨ 0x61 ≤ c ≤ 0x7A ∨ 0x41 ≤ c ≤ 0x5A ∨ 0xAC00 ≤ c ≤ 0xD7A3.

(** The questions whose key is neither in [seen] nor the key of an
    earlier question of the list. *)
Fixpoint keepNew (key : SearchQuestion → jsstring) (seen : gset jsstring)
    (questions : list SearchQuestion) : list SearchQuestion :=
  match questions with
  | [] => []
  | q :: r =>
    if decide (key q ∈ seen) then keepNew key seen r
    else q :: keepNew key ({[ key q ]} ∪ seen) r
  end.

(** A question with the given text, as a provider for [google] returns
    it without a link. *)
Definition question (t : jsstring) : SearchQuestion :=
  {| source := google; text := t; url := None |}.

(** The sum of the counts of a frequency map. *)
Definition totalCount (m : JsMap.t) : Z := foldr (λ e acc, (e.2 + acc)%Z) 0%Z m.

(** Equality of rationals is decidable. *)
#[global] Instance Qeq_decision (x y : Q) : Decision (x == y)%Q := Qeq_dec x y.

(** A sentence separator occurs in [s]: a terminator followed by a
    whitespace code unit. *)
Fixpoint hasSeparator (s : jsstring) : bool :=
  match s with
  | c :: r =>
    (isTerminator c && match r with w :: _ => isWhiteSpace w | [] => false end)
    || hasSeparator r
  | [] => false
  end.

(** [needle] occurs in [hay] as a substring. *)
Definition infix (needle hay : jsstring) : Prop :=
  ∃ l r, hay = l ++ needle ++ r.

(** Every question mark of [s] is followed by a whitespace code unit. *)
Fixpoint marksSpaced (s : jsstring) : bool :=
  match s with
  | c :: r =>
    (negb (c =? 0x3F) || match r with w :: _ => isWhiteSpace w | [] => false end)
    && marksSpaced r
  | [] => true
  end.

(** The only whitespace of [s] is single spaces: every whitespace code
    unit is U+0020 and is not followed by another one. *)
Fixpoint singleSpaced (s : jsstring) : bool :=
  match s with
  | c :: r =>
    (negb (isWhiteSpace c)
     || ((c =? SP) && match r with w :: _ => negb (isWhiteSpace w) | [] => true end))
    && singleSpaced r
  | [] => true
  end.

(** The fields of a meta record. *)
Definition metaFields (meta : AnalysisMeta) : list (option jsstring) :=
  [title meta; description meta; keywords meta; ogTitle meta;
   ogDescription meta; canonical meta].

(** Keeping the first occurrence per key, in the original order: the
    questions at the positions [i] of the list whose key is not the key
    of a question at a position before [i], by increasing position. *)
Definition firstOccurrences (key : SearchQuestion → jsstring)
    (questions : list SearchQuestion) : list SearchQuestion :=
  (filter (λ p, key p.2 ∉ key <$> take p.1 questions) (imap pair questions)).*2.

(** * Properties *)

(** ** The stable sort *)

Section ArraySortFacts.
Context {A : Type} (cmp : A → A → Z).

Lemma sort_insert_perm x l : sort_insert cmp x l ≡ₚ x :: l.
Proof.
  induction l as [|y l IH]; simpl; [done|].
  case_decide; [done|]. rewrite IH. apply Permutation_swap.
Qed.

Lemma Array_sort_perm l : Array_sort cmp l ≡ₚ l.
Proof.
  induction l as [|x l IH]; simpl; [done|].
  rewrite sort_insert_perm. by rewrite IH.
Qed.

Lemma Array_sort_length l : length (Array_sort cmp l) = length l.
Proof. by rewrite Array_sort_perm. Qed.

(** Sorting a list that is in the order [T] by a key, largest first:
    the result is ordered by the key, and elements of equal key stay
    in the order [T]. *)
Context (key : A → Z) (T : A → A → Prop).
Hypothesis cmp_key : ∀ a b, (cmp a b ≤ 0 ↔ key b ≤ key a)%Z.

Lemma ranked_key a b : ranked key T a b → (key b ≤ key a)%Z.
Proof. unfold ranked. lia. Qed.

Lemma sort_insert_ranked x l :
  StronglySorted (ranked key T) l → Forall (T x) l →
  StronglySorted (ranked key T) (sort_insert cmp x l).
Proof.
  induction l as [|y l IH]; simpl; intros Hs HT.
  { repeat constructor. }
  apply StronglySorted_cons in Hs as [Hy Hs].
  apply Forall_cons in HT as [HTy HT].
  case_decide as Hc.
  - apply cmp_key in Hc.
    apply StronglySorted_cons. split.
    + apply Forall_cons. split.
      * unfold ranked. destruct (decide (key y = key x)); [right|left]; [done|lia].
      * rewrite Forall_forall in Hy, HT |- *. intros z Hz.
        specialize (Hy z Hz). apply ranked_key in Hy.
        unfold ranked.
        destruct (decide (key z = key x)); [right|left]; [|lia].
        split; [done|]. by apply HT.
    + apply StronglySorted_cons. done.
  - assert (key x < key y)%Z as Hlt.
    { destruct (Z.le_gt_cases (key y) (key x)) as [Hle|]; [|lia].
      by apply cmp_key in Hle. }
    apply StronglySorted_cons. split; [|by apply IH].
    rewrite sort_insert_perm. apply Forall_cons. split; [by left|done].
Qed.

Lemma Array_sort_ranked l :
  StronglySorted T l → StronglySorted (ranked key T) (Array_sort cmp l).
Proof.
  induction l as [|x l IH]; simpl; intros Hs.
  { constructor. }
  apply StronglySorted_cons in Hs as [Hx Hs].
  apply sort_insert_ranked; [by apply IH|].
  by rewrite Array_sort_perm.
Qed.

End ArraySortFacts.

(** ** Lists in a given order *)

Lemma StronglySorted_sublist {A} (R : relation A) (l1 l2 : list A) :
  l1 `sublist_of` l2 → StronglySorted R l2 → StronglySorted R l1.
Proof.
  induction 1 as [|x l1 l2 Hsub IH|x l1 l2 Hsub IH]; intros Hs; [done|..].
  - apply StronglySorted_cons in Hs as [Hx Hs].
    apply StronglySorted_cons. split; [|by apply IH].
    rewrite Forall_forall in Hx |- *. intros y Hy. apply Hx.
    by eapply elem_of_sublist.
  - apply StronglySorted_cons in Hs as [_ Hs]. by apply IH.
Qed.

Lemma StronglySorted_impl_elem {A} (R1 R2 : relation A) (l : list A) :
  (∀ x y, x ∈ l → y ∈ l → R1 x y → R2 x y) →
  StronglySorted R1 l → StronglySorted R2 l.
Proof.
  induction l as [|x l IH]; intros HR Hs; [constructor|].
  apply StronglySorted_cons in Hs as [Hx Hs].
  apply StronglySorted_cons. split.
  - rewrite Forall_forall in Hx |- *. intros y Hy.
    apply HR; [left|by right|by apply Hx].
  - apply IH; [|done]. intros a b Ha Hb. apply HR; by right.
Qed.

Lemma StronglySorted_lookup {A} (R : relation A) (l : list A) i j a b :
  StronglySorted R l → (i < j)%nat → l !! i = Some a → l !! j = Some b → R a b.
Proof.
  intros Hs Hij Hi Hj.
  rewrite <-(take_drop_middle l i a Hi) in Hs, Hj.
  apply StronglySorted_app_1_r, StronglySorted_cons in Hs as [Ha _].
  rewrite Forall_forall in Ha. apply Ha.
  assert (length (take i l) = i) as Hlen.
  { apply length_take_le. apply lookup_lt_Some in Hi. lia. }
  rewrite lookup_app_r in Hj by lia.
  rewrite Hlen in Hj. destruct (j - i)%nat as [|n] eqn:E; [lia|].
  simpl in Hj. by eapply list_elem_of_lookup_2.
Qed.

(** ** First occurrences and frequencies *)

Lemma firstSeen_elem l k : k ∈ firstSeen l ↔ k ∈ l.
Proof.
  induction l as [|x l IH]; simpl; [done|].
  rewrite !elem_of_cons, list_elem_of_filter, IH.
  destruct (decide (k = x)); tauto.
Qed.

Lemma firstSeen_NoDup l : NoDup (firstSeen l).
Proof.
  induction l as [|x l IH]; simpl; [constructor|].
  apply NoDup_cons. split.
  - rewrite list_elem_of_filter. tauto.
  - by apply NoDup_filter.
Qed.

Lemma firstSeen_snoc l x :
  firstSeen (l ++ [x]) = if decide (x ∈ l) then firstSeen l else firstSeen l ++ [x].
Proof.
  induction l as [|y l IH]; simpl; [done|].
  rewrite IH. clear IH.
  destruct (decide (x ∈ l)) as [Hin|Hin];
    destruct (decide (x ∈ y :: l)) as [Hin'|Hin']; try done.
  - exfalso. apply Hin'. by right.
  - apply elem_of_cons in Hin' as [->|?]; [|done].
    rewrite filter_app, filter_cons_False by (intros ?; done).
    by rewrite filter_nil, app_nil_r.
  - apply not_elem_of_cons in Hin' as [Hne _].
    rewrite filter_app, filter_cons_True by done. done.
Qed.

Lemma firstSeen_order l :
  StronglySorted (λ a b, (firstIndex l a < firstIndex l b)%nat) (firstSeen l).
Proof.
  induction l as [|x l IH]; simpl; [constructor|].
  apply StronglySorted_cons. split.
  - rewrite Forall_forall. intros y [Hy _]%list_elem_of_filter.
    rewrite decide_True by done. rewrite decide_False by done. lia.
  - apply (StronglySorted_sublist _ (filter (λ y, y ≠ x) (firstSeen l))) in IH;
      [|apply sublist_filter].
    eapply StronglySorted_impl_elem; [|exact IH].
    intros a b [Ha _]%list_elem_of_filter [Hb _]%list_elem_of_filter Hab.
    simpl. rewrite !decide_False by done. lia.
Qed.

Lemma occurrences_snoc l x k :
  occurrences (l ++ [x]) k
  = (occurrences l k + (if decide (x = k) then 1 else 0))%Z.
Proof.
  unfold occurrences. rewrite filter_app, length_app.
  destruct (decide (x = k)).
  - rewrite filter_cons_True by done. simpl. lia.
  - rewrite filter_cons_False by done. simpl. lia.
Qed.

Lemma occurrences_notin l k : k ∉ l → occurrences l k = 0%Z.
Proof.
  intros Hk. unfold occurrences.
  replace (filter (λ t, t = k) l) with (@nil jsstring); [done|].
  symmetry. induction l as [|x l IH]; [done|].
  rewrite not_elem_of_cons in Hk. destruct Hk as [Hne Hk].
  rewrite filter_cons_False by done. by apply IH.
Qed.

Lemma occurrences_pos l k : k ∈ l → (1 ≤ occurrences l k)%Z.
Proof.
  intros Hk. unfold occurrences.
  assert (k ∈ filter (λ t, t = k) l) as Hin by (by apply list_elem_of_filter).
  destruct (filter (λ t, t = k) l); [by apply elem_of_nil in Hin|].
  simpl. lia.
Qed.

(** ** The frequency map *)

Section Keyed.
Context (v : jsstring → Z).

Lemma JsMap_get_keyed L x :
  JsMap.get ((λ k, (k, v k)) <$> L) x
  = if decide (x ∈ L) then Some (v x) else None.
Proof.
  induction L as [|y L IH]; csimpl; [done|].
  destruct (decide (y = x)) as [->|Hne].
  - by rewrite decide_True by left.
  - rewrite IH. case_decide as Hin.
    + by rewrite decide_True by (by right).
    + rewrite decide_False; [done|]. rewrite elem_of_cons.
      intros [?|?]; [by subst|done].
Qed.

Lemma JsMap_set_fresh L x w :
  x ∉ L →
  JsMap.set ((λ k, (k, v k)) <$> L) x w = ((λ k, (k, v k)) <$> L) ++ [(x, w)].
Proof.
  induction L as [|y L IH]; csimpl; intros Hx; [done|].
  rewrite not_elem_of_cons in Hx. destruct Hx as [Hne Hx].
  rewrite decide_False by done. by rewrite IH.
Qed.

Lemma JsMap_set_present L x w :
  NoDup L → x ∈ L →
  JsMap.set ((λ k, (k, v k)) <$> L) x w
  = (λ k, (k, if decide (k = x) then w else v k)) <$> L.
Proof.
  induction L as [|y L IH]; csimpl; intros Hnd Hx; [by apply elem_of_nil in Hx|].
  apply NoDup_cons in Hnd as [Hy Hnd].
  destruct (decide (y = x)) as [->|Hne].
  - f_equal. apply list_fmap_ext. intros i k Hk.
    rewrite decide_False; [done|]. intros ->.
    apply Hy. by eapply list_elem_of_lookup_2.
  - f_equal. apply IH; [done|].
    apply elem_of_cons in Hx as [->|Hx]; done.
Qed.
End Keyed.

(** The counting loop computes the frequency of every distinct token,
    and the map keeps the tokens in first-seen order. *)
Lemma countTokens_tally tokens : countTokens tokens = tally tokens.
Proof.
  induction tokens as [|x l IH] using rev_ind; [done|].
  unfold countTokens in *. rewrite foldl_snoc, IH. clear IH.
  unfold tally. rewrite JsMap_get_keyed, firstSeen_snoc.
  destruct (decide (x ∈ l)) as [Hin|Hin].
  - rewrite decide_True by (by apply firstSeen_elem). simpl.
    rewrite JsMap_set_present;
      [|apply firstSeen_NoDup|by apply firstSeen_elem].
    apply list_fmap_ext. intros i k Hk. rewrite occurrences_snoc.
    f_equal. destruct (decide (k = x)) as [->|Hne].
    + by rewrite decide_True by done.
    + rewrite decide_False by done. lia.
  - rewrite decide_False by (by rewrite firstSeen_elem). simpl.
    rewrite JsMap_set_fresh by (by rewrite firstSeen_elem).
    rewrite fmap_app. simpl. f_equal.
    + apply list_fmap_ext. intros i k Hk. rewrite occurrences_snoc.
      rewrite decide_False; [f_equal; lia|].
      intros ->. apply Hin. apply firstSeen_elem.
      by eapply list_elem_of_lookup_2.
    + rewrite occurrences_snoc, occurrences_notin by done.
      by rewrite decide_True by done.
Qed.

(** ** Quotients of counts *)

Lemma ratio_le c1 c2 m :
  (0 < m)%Z → (c1 ≤ c2)%Z →
  (inject_Z c1 / inject_Z m <= inject_Z c2 / inject_Z m)%Q.
Proof.
  intros Hm Hc. destruct m as [|p|p]; try lia.
  unfold Qle, Qdiv, Qmult, Qinv, inject_Z. simpl. nia.
Qed.

Lemma ratio_one m : (0 < m)%Z → (inject_Z m / inject_Z m == 1)%Q.
Proof.
  intros Hm. destruct m as [|p|p]; try lia.
  unfold Qeq, Qdiv, Qmult, Qinv, inject_Z. simpl. lia.
Qed.

Lemma ratio_nonneg c m :
  (0 ≤ c)%Z → (0 < m)%Z → (0 <= inject_Z c / inject_Z m)%Q.
Proof.
  intros Hc Hm. destruct m as [|p|p]; try lia.
  unfold Qle, Qdiv, Qmult, Qinv, inject_Z. simpl. nia.
Qed.


(** ** Ranking *)

Section Ranking.
Context (tokens : list jsstring).

Let sorted := Array_sort (λ a b : jsstring * Z, (b.2 - a.2)%Z) (tally tokens).

Lemma tally_entry e :
  e ∈ tally tokens →
  e.1 ∈ tokens ∧ e.2 = occurrences tokens e.1 ∧ (1 ≤ e.2)%Z.
Proof.
  unfold tally. intros (k & -> & Hk)%list_elem_of_fmap. simpl.
  rewrite firstSeen_elem in Hk. split; [done|]. split; [done|].
  by apply occurrences_pos.
Qed.

Lemma sorted_entry e :
  e ∈ sorted → e.1 ∈ tokens ∧ e.2 = occurrences tokens e.1 ∧ (1 ≤ e.2)%Z.
Proof. unfold sorted. rewrite Array_sort_perm. apply tally_entry. Qed.

Lemma tally_order : StronglySorted (seenBefore tokens) (tally tokens).
Proof.
  unfold tally. eapply StronglySorted_fmap; [|apply firstSeen_order].
  intros x y Hxy. exact Hxy.
Qed.

Lemma sorted_ranked : StronglySorted (ranked snd (seenBefore tokens)) sorted.
Proof.
  unfold sorted. apply Array_sort_ranked; [|apply tally_order].
  intros a b. simpl. lia.
Qed.

Lemma sorted_precedes :
  StronglySorted (λ a b, precedes tokens a.1 b.1) sorted.
Proof.
  eapply StronglySorted_impl_elem; [|apply sorted_ranked].
  intros a b (_ & Ha & _)%sorted_entry (_ & Hb & _)%sorted_entry.
  unfold ranked, precedes, seenBefore. rewrite <-Ha, <-Hb. tauto.
Qed.

Lemma sorted_keys : sorted.*1 ≡ₚ firstSeen tokens.
Proof.
  unfold sorted. rewrite Array_sort_perm. unfold tally.
  rewrite <-list_fmap_compose. simpl.
  by rewrite list_fmap_id.
Qed.

End Ranking.

(** ** [rankEntries] on the frequency map *)

Section RankEntries.
Context (tokens : list jsstring).

Let sorted := Array_sort (λ a b : jsstring * Z, (b.2 - a.2)%Z) (tally tokens).

Lemma rankEntries_unfold :
  rankEntries (tally tokens)
  = (λ e : jsstring * Z,
       {| value := e.1;
          score := (inject_Z e.2
                    / inject_Z (match take 10 sorted with
                                | e0 :: _ => e0.2
                                | [] => 1%Z
                                end))%Q |})
      <$> take 10 sorted.
Proof. reflexivity. Qed.

Lemma rankEntries_values : value <$> rankEntries (tally tokens) = (take 10 sorted).*1.
Proof.
  rewrite rankEntries_unfold, <-list_fmap_compose.
  by apply list_fmap_ext.
Qed.

Lemma top_ranked :
  StronglySorted (ranked snd (seenBefore tokens)) (take 10 sorted).
Proof.
  eapply StronglySorted_sublist; [apply sublist_take|].
  apply sorted_ranked.
Qed.

Lemma top_entry e :
  e ∈ take 10 sorted →
  e.1 ∈ tokens ∧ e.2 = occurrences tokens e.1 ∧ (1 ≤ e.2)%Z.
Proof.
  intros He. apply sorted_entry.
  eapply elem_of_sublist; [exact He|apply sublist_take].
Qed.

Lemma rankEntries_length : (length (rankEntries (tally tokens)) ≤ 10)%nat.
Proof. rewrite rankEntries_unfold, length_fmap, length_take. lia. Qed.

Lemma rankEntries_scores :
  Forall (λ kw, (0 <= score kw)%Q ∧ (score kw <= 1)%Q) (rankEntries (tally tokens))
  ∧ StronglySorted (λ a b, (score b <= score a)%Q) (rankEntries (tally tokens))
  ∧ (∀ kw, head (rankEntries (tally tokens)) = Some kw → (score kw == 1)%Q).
Proof.
  rewrite rankEntries_unfold.
  pose proof top_ranked as Hs. pose proof top_entry as He.
  destruct (take 10 sorted) as [|e0 top]; [by repeat constructor|].
  assert (1 ≤ e0.2)%Z as H0 by (apply He; left).
  pose proof Hs as Hs'.
  apply StronglySorted_cons in Hs' as [Hle _].
  assert (∀ e, e ∈ e0 :: top → (1 ≤ e.2 ≤ e0.2)%Z) as Hb.
  { intros e Hin. split; [by apply He|].
    apply elem_of_cons in Hin as [->|Hin]; [lia|].
    rewrite Forall_forall in Hle. apply Hle in Hin.
    by apply ranked_key in Hin. }
  split; [|split].
  - rewrite Forall_fmap, Forall_forall. intros e Hin. simpl.
    apply Hb in Hin. split.
    + apply ratio_nonneg; lia.
    + rewrite <-(ratio_one e0.2) by lia. apply ratio_le; lia.
  - eapply StronglySorted_fmap;
      [|eapply StronglySorted_impl_elem; [|exact Hs]].
    + intros x y Hxy. simpl. exact Hxy.
    + intros x y Hx Hy Hxy. simpl. apply ratio_le; [lia|].
      by apply ranked_key in Hxy.
  - simpl. intros kw [= <-]. simpl. apply ratio_one. lia.
Qed.

Lemma rankEntries_precedes :
  StronglySorted (λ a b, precedes tokens (value a) (value b))
    (rankEntries (tally tokens)).
Proof.
  rewrite rankEntries_unfold.
  eapply StronglySorted_fmap;
    [|eapply StronglySorted_sublist;
       [apply sublist_take|apply sorted_precedes]].
  intros x y Hxy. exact Hxy.
Qed.

Lemma rankEntries_tokens kw :
  kw ∈ rankEntries (tally tokens) →
  value kw ∈ tokens
  ∧ (∃ m, (1 ≤ m)%Z
          ∧ score kw = (inject_Z (occurrences tokens (value kw)) / inject_Z m)%Q
          ∧ ∀ kw', kw' ∈ rankEntries (tally tokens) →
              score kw' = (inject_Z (occurrences tokens (value kw')) / inject_Z m)%Q).
Proof.
  rewrite rankEntries_unfold. pose proof top_entry as He.
  destruct (take 10 sorted) as [|e0 top] eqn:E.
  { intros []%elem_of_nil. }
  intros (e & -> & Hin)%list_elem_of_fmap. cbn [value score].
  split; [by apply He|].
  exists e0.2. split; [apply He; left|].
  split.
  - destruct (He e Hin) as (_ & <- & _). done.
  - intros kw' (e' & -> & Hin')%list_elem_of_fmap. cbn [value score].
    destruct (He e' Hin') as (_ & <- & _). done.
Qed.

(** The ten are the first ten: a token that is left out ranks after
    every one that is returned. *)
Lemma rankEntries_top t :
  t ∈ tokens → t ∉ value <$> rankEntries (tally tokens) →
  length (rankEntries (tally tokens)) = 10%nat
  ∧ ∀ kw, kw ∈ rankEntries (tally tokens) → precedes tokens (value kw) t.
Proof.
  intros Ht Hout. rewrite rankEntries_values in Hout.
  assert (t ∈ sorted.*1) as Hin.
  { unfold sorted. rewrite sorted_keys. by apply firstSeen_elem. }
  apply list_elem_of_fmap in Hin as (e & -> & Hin).
  rewrite <-(take_drop 10 sorted) in Hin.
  apply elem_of_app in Hin as [Hin|Hin].
  { exfalso. apply Hout. by apply list_elem_of_fmap_2. }
  split.
  - rewrite rankEntries_unfold, length_fmap, length_take.
    destruct (decide (length sorted ≤ 10)%nat) as [Hle|]; [|lia].
    rewrite drop_ge in Hin by done. by apply elem_of_nil in Hin.
  - rewrite rankEntries_unfold.
    intros kw (e' & -> & Hin')%list_elem_of_fmap. simpl.
    pose proof (sorted_precedes tokens) as Hs. fold sorted in Hs.
    rewrite <-(take_drop 10 sorted) in Hs.
    by eapply (StronglySorted_app_1_elem_of _ _ _ _ _ Hs).
Qed.

End RankEntries.

(** ** [extractSeedKeywords] *)

Lemma extractSeedKeywords_cases toLowerCase meta headings contentText :
  let rawText := join_sp (textParts meta headings contentText) in
  let tokens := tokenize toLowerCase rawText in
  (extractSeedKeywords toLowerCase meta headings contentText = []
   ∧ (trim rawText = [] ∨ tokens = []))
  ∨ (extractSeedKeywords toLowerCase meta headings contentText
       = rankEntries (tally tokens)
     ∧ trim rawText ≠ []).
Proof.
  intros rawText tokens. unfold extractSeedKeywords.
  fold rawText. fold tokens.
  destruct (decide (trim rawText = [])) as [Hb|Hb]; [left; auto|].
  destruct (decide (length tokens = 0%nat)) as [Hn|Hn].
  - left. split; [done|]. right. by apply nil_length_inv.
  - right. by rewrite countTokens_tally.
Qed.

(** ** Splitting and runs *)

(** The pieces of [split_ws] and the fields between whitespace code
    units differ only in empty pieces, and start with the same piece. *)
Lemma split_ws_fields s :
  ∃ p ps ps',
    split_ws s = p :: ps ∧ fields nonWhite s = p :: ps'
    ∧ filter (λ t, t ≠ []) ps = filter (λ t, t ≠ []) ps'
    ∧ (∀ c r, s = c :: r → isWhiteSpace c = true → p = []).
Proof.
  induction s as [|c r IH].
  { exists [], [], []. simpl. split_and!; try done. }
  destruct IH as (p & ps & ps' & Hs & Hf & Hfil & Hhd).
  simpl. unfold nonWhite at 1. destruct (isWhiteSpace c) eqn:Hc; simpl.
  - destruct r as [|c' r'].
    + exists [], [[]], [[]]. split_and!; try done.
    + destruct (isWhiteSpace c') eqn:Hc'.
      * assert (p = []) as -> by (by eapply Hhd).
        exists [], ps, ([] :: ps'). rewrite Hs, Hf.
        split_and!; try done.
      * exists [], (p :: ps), (p :: ps'). rewrite Hs, Hf.
        split_and!; try done.
        rewrite !filter_cons. case_decide; by rewrite Hfil.
  - rewrite Hs, Hf. exists (c :: p), ps, ps'.
    split_and!; try done. intros ? ? [= <- <-]. by rewrite Hc.
Qed.

Lemma split_ws_runs s :
  filter (λ t, t ≠ []) (split_ws s) = maximalRuns nonWhite s.
Proof.
  destruct (split_ws_fields s) as (p & ps & ps' & -> & Hf & Hfil & _).
  unfold maximalRuns. rewrite Hf, !filter_cons, Hfil. done.
Qed.

Section Cleaning.
Context (K : N → bool).
Hypothesis K_not_white : ∀ c, K c = true → isWhiteSpace c = false.

(** Replacing the runs outside the class by spaces keeps the runs of
    the class. *)
Lemma replace_runs_fields s :
  ∃ p ps ps',
    fields nonWhite (replace_runs (λ c, negb (K c)) s) = p :: ps
    ∧ fields K s = p :: ps'
    ∧ filter (λ t, t ≠ []) ps = filter (λ t, t ≠ []) ps'
    ∧ (∀ c r, s = c :: r → K c = false → p = []).
Proof.
  induction s as [|c r IH].
  { exists [], [], []. simpl. split_and!; try done. }
  destruct IH as (p & ps & ps' & Hs & Hf & Hfil & Hhd).
  simpl. destruct (K c) eqn:Hc; simpl.
  - unfold nonWhite at 1. rewrite (K_not_white c Hc). simpl.
    rewrite Hs, Hf. exists (c :: p), ps, ps'. split_and!; try done.
    intros ? ? [= <- <-] ?. congruence.
  - destruct r as [|c' r'].
    + exists [], [[]], [[]]. split_and!; try done.
    + destruct (K c') eqn:Hc'; simpl.
      * exists [], (p :: ps), (p :: ps'). simpl in *.
        rewrite Hc' in *. simpl in *. rewrite Hs, Hf.
        split_and!; try done.
        rewrite !filter_cons. case_decide; by rewrite Hfil.
      * assert (p = []) as -> by (by eapply Hhd).
        exists [], ps, ([] :: ps'). simpl in *. rewrite Hc' in *.
        simpl in *. rewrite Hs, Hf. split_and!; try done.
Qed.

Lemma replace_runs_tokens s :
  filter (λ t, (0 < length t)%nat) (split_ws (replace_runs (λ c, negb (K c)) s))
  = maximalRuns K s.
Proof.
  erewrite list_filter_iff; [rewrite split_ws_runs|].
  - destruct (replace_runs_fields s) as (p & ps & ps' & Hs & Hf & Hfil & _).
    unfold maximalRuns. rewrite Hs, Hf, !filter_cons, Hfil. done.
  - intros [|??]; simpl; split; (done || lia).
Qed.
End Cleaning.

(** The two equations that determine [replace_runs]: code units outside
    the class are kept, and a maximal run of the class becomes one
    space. *)
Lemma replace_runs_keep C k s :
  Forall (λ c, C c = false) k →
  replace_runs C (k ++ s) = k ++ replace_runs C s.
Proof.
  induction 1 as [|c k Hc _ IH]; simpl; [done|]. by rewrite Hc, IH.
Qed.

Lemma replace_runs_run C r s :
  r ≠ [] → Forall (λ c, C c = true) r →
  (∀ c, head s = Some c → C c = false) →
  replace_runs C (r ++ s) = SP :: replace_runs C s.
Proof.
  intros Hne Hr Hs. induction Hr as [|c r Hc Hr IH]; [done|].
  simpl. rewrite Hc. destruct r as [|c' r'].
  - simpl. destruct s as [|c' s']; [done|].
    rewrite (Hs c') by done. done.
  - inversion Hr as [|?? Hc' _]; subst.
    rewrite <-IH by done. cbn [app]. by rewrite Hc'.
Qed.

(** ** The keyword tokenizer *)

Ltac bool_to_prop :=
  repeat match goal with
  | H : _ || _ = true |- _ => apply orb_true_iff in H
  | H : _ && _ = true |- _ => apply andb_true_iff in H
  | H : _ ∨ _ |- _ => destruct H
  | H : _ ∧ _ |- _ => destruct H
  | H : (_ <=? _) = true |- _ => apply N.leb_le in H
  | H : (_ =? _) = true |- _ => apply N.eqb_eq in H
  end.

Lemma isDigit_spec c : isDigit c = true ↔ 0x30 ≤ c ≤ 0x39.
Proof.
  unfold isDigit. rewrite andb_true_iff, !N.leb_le. done.
Qed.

Lemma isKeywordChar_spec c : isKeywordChar c = true ↔ keywordClass c.
Proof.
  unfold isKeywordChar, keywordClass.
  rewrite !orb_true_iff, isDigit_spec, !andb_true_iff, !N.leb_le. tauto.
Qed.

Lemma isKeywordChar_not_white c :
  isKeywordChar c = true → isWhiteSpace c = false.
Proof.
  intros Hk%isKeywordChar_spec.
  destruct (isWhiteSpace c) eqn:Hw; [exfalso|done].
  unfold keywordClass in Hk. unfold isWhiteSpace in Hw.
  bool_to_prop; lia.
Qed.

Lemma allDigits_spec t :
  allDigits t = true ↔ t ≠ [] ∧ Forall (λ c, 0x30 ≤ c ≤ 0x39) t.
Proof.
  unfold allDigits. rewrite andb_true_iff, bool_decide_eq_true, forallb_forall, Forall_forall.
  split; intros [Hne H]; (split; [done|]); intros c Hc.
  - apply isDigit_spec, H. by apply list_elem_of_In.
  - apply isDigit_spec, H. by apply list_elem_of_In.
Qed.

Lemma keepToken_spec t :
  keepToken t ↔ length t ≠ 1%nat ∧ allDigits t = false ∧ (length t < 30)%nat.
Proof.
  unfold keepToken. repeat case_decide; destruct (allDigits t); simpl;
    split; try done; try lia; intros (? & ? & ?); try done; lia.
Qed.

Lemma STOP_WORDS_glossary t : t ∈ STOP_WORDS ↔ t ∈ glossaryStopWords.
Proof. unfold STOP_WORDS. by rewrite elem_of_list_to_set. Qed.

(** ** The structure score *)

Lemma presentNonBlank_spec o :
  presentNonBlank o = true ↔ ∃ s, o = Some s ∧ trim s ≠ [].
Proof.
  destruct o as [s|]; simpl.
  - rewrite andb_true_iff, bool_decide_eq_true. split.
    + intros [_ Hlen]. exists s. split; [done|].
      intros Ht. rewrite Ht in Hlen. simpl in Hlen. lia.
    + intros (? & [= <-] & Ht). split.
      * destruct s; [done|done].
      * destruct (trim s); [done|simpl; lia].
  - split; [done|]. by intros (? & [=] & _).
Qed.

(** ** Question coverage *)

Section CoverageFacts.
Context (toLowerCase : jsstring → jsstring).

Lemma coverageTokens_runs s :
  coverageTokens toLowerCase s
  = filter (λ t, (2 ≤ length t)%nat) (maximalRuns nonWhite (toLowerCase s)).
Proof.
  unfold coverageTokens. rewrite <-split_ws_runs, list_filter_filter.
  apply list_filter_iff. intros [|??]; simpl; split; try done; try lia.
Qed.

Lemma isCovered_spec searchTokens pageQuestions :
  isCovered toLowerCase searchTokens pageQuestions = true
  ↔ ∃ pageQ token, pageQ ∈ pageQuestions ∧ token ∈ searchTokens
                   ∧ token ∈ coverageTokens toLowerCase pageQ.
Proof.
  induction pageQuestions as [|pageQ rest IH]; simpl.
  { split; [done|]. by intros (? & ? & []%elem_of_nil & _). }
  set (inter := filter _ searchTokens).
  assert (∀ t, t ∈ inter ↔ t ∈ searchTokens ∧ t ∈ coverageTokens toLowerCase pageQ)
    as Hinter.
  { intros t. unfold inter. rewrite list_elem_of_filter. unfold includes.
    rewrite bool_decide_spec. tauto. }
  case_decide as Hlen.
  - split; [intros _|done].
    destruct inter as [|t inter']; [simpl in Hlen; lia|].
    destruct (Hinter t) as [[H1 H2] _]; [left|].
    exists pageQ, t. split; [left|done].
  - rewrite IH. split.
    + intros (pq & t & Hpq & Ht). exists pq, t. split; [by right|done].
    + intros (pq & t & [->|Hpq]%elem_of_cons & Ht1 & Ht2).
      * exfalso. apply Hlen.
        assert (t ∈ inter) as Hin by (by apply Hinter).
        destruct inter; [by apply elem_of_nil in Hin|simpl; lia].
      * by exists pq, t.
Qed.

(** The scan stops at the first page question that shares a token. *)
Lemma isCovered_cons searchTokens pageQ rest :
  isCovered toLowerCase searchTokens (pageQ :: rest)
  = if decide (Exists (λ token, token ∈ coverageTokens toLowerCase pageQ)
                      searchTokens)
    then true else isCovered toLowerCase searchTokens rest.
Proof.
  simpl. set (inter := filter _ searchTokens).
  assert (∀ t, t ∈ inter ↔ t ∈ searchTokens ∧ t ∈ coverageTokens toLowerCase pageQ)
    as Hinter.
  { intros t. unfold inter. rewrite list_elem_of_filter. unfold includes.
    rewrite bool_decide_spec. tauto. }
  destruct (decide (1 ≤ length inter)%nat) as [Hlen|Hlen].
  - rewrite decide_True; [done|].
    destruct inter as [|t inter']; [simpl in Hlen; lia|].
    apply Exists_exists. exists t. apply Hinter. left.
  - rewrite decide_False; [done|]. intros (t & Ht)%Exists_exists.
    apply Hinter in Ht. destruct inter; [by apply elem_of_nil in Ht|].
    simpl in Hlen. lia.
Qed.

Lemma coveredCount_filter pageQuestions searchQuestions :
  coveredCount toLowerCase pageQuestions searchQuestions
  = Z.of_nat (length (filter
      (λ sq, isCovered toLowerCase (coverageTokens toLowerCase (text sq))
               pageQuestions = true) searchQuestions)).
Proof.
  unfold coveredCount.
  enough (∀ n, foldl (λ coveredCount searchQ,
                 if isCovered toLowerCase
                      (coverageTokens toLowerCase (text searchQ)) pageQuestions
                 then (coveredCount + 1)%Z else coveredCount) n searchQuestions
               = (n + Z.of_nat (length (filter
                   (λ sq, isCovered toLowerCase
                            (coverageTokens toLowerCase (text sq))
                            pageQuestions = true) searchQuestions)))%Z) as H.
  { by rewrite H. }
  induction searchQuestions as [|sq rest IH]; intros n; simpl; [lia|].
  rewrite IH, filter_cons.
  destruct (isCovered _ _ _) eqn:E.
  - rewrite decide_True by done. simpl. lia.
  - rewrite decide_False by done. lia.
Qed.

Lemma coveredCount_bounds pageQuestions searchQuestions :
  (0 ≤ coveredCount toLowerCase pageQuestions searchQuestions
     ≤ Z.of_nat (length searchQuestions))%Z.
Proof.
  rewrite coveredCount_filter.
  pose proof (length_filter
    (λ sq, isCovered toLowerCase (coverageTokens toLowerCase (text sq))
             pageQuestions = true) searchQuestions).
  lia.
Qed.

Lemma coveredCount_no_pages searchQuestions :
  coveredCount toLowerCase [] searchQuestions = 0%Z.
Proof.
  rewrite coveredCount_filter.
  induction searchQuestions as [|sq rest IH]; [done|].
  rewrite filter_cons_False; [done|]. simpl. done.
Qed.

Lemma calculateQuestionCoverage_bounds pageQuestions searchQuestions :
  (0 <= calculateQuestionCoverage toLowerCase pageQuestions searchQuestions)%Q
  ∧ (calculateQuestionCoverage toLowerCase pageQuestions searchQuestions <= 1)%Q.
Proof.
  unfold calculateQuestionCoverage.
  pose proof (coveredCount_bounds pageQuestions searchQuestions) as Hb.
  case_decide; [done|]. split.
  - apply ratio_nonneg; lia.
  - assert (0 < Z.of_nat (length searchQuestions))%Z as Hpos by lia.
    rewrite <-(ratio_one _ Hpos). apply ratio_le; lia.
Qed.

End CoverageFacts.

(** ** Deduplication *)

Section KeepNew.
Context (key : SearchQuestion → jsstring).

Lemma keepNew_sublist seen qs : keepNew key seen qs `sublist_of` qs.
Proof.
  revert seen. induction qs as [|q r IH]; intros seen; simpl; [done|].
  case_decide; [by apply sublist_cons|by apply sublist_skip].
Qed.

Lemma keepNew_first seen qs q :
  q ∈ keepNew key seen qs
  ↔ ∃ i, qs !! i = Some q ∧ (key q ∉ seen)
         ∧ ∀ j qj, (j < i)%nat → qs !! j = Some qj → key qj ≠ key q.
Proof.
  revert seen. induction qs as [|q0 r IH]; intros seen; simpl.
  { split; [by intros []%elem_of_nil|]. by intros (i & [=] & _). }
  case_decide as Hseen.
  - rewrite IH. split.
    + intros (i & Hi & Hq & Hj). exists (S i). split; [done|]. split; [done|].
      intros [|j] qj Hlt Hqj; simpl in Hqj.
      * injection Hqj as <-. intros Heq. apply Hq. by rewrite <-Heq.
      * apply (Hj j); [lia|done].
    + intros ([|i] & Hi & Hq & Hj); simpl in Hi.
      * injection Hi as <-. done.
      * exists i. split; [done|]. split; [done|].
        intros j qj Hlt Hqj. apply (Hj (S j)); [lia|done].
  - rewrite elem_of_cons, IH. split.
    + intros [->|(i & Hi & Hq & Hj)].
      * exists 0%nat. split; [done|]. split; [done|]. intros j qj Hlt. lia.
      * exists (S i). split; [done|].
        apply not_elem_of_union in Hq as [Hne Hq].
        split; [done|].
        intros [|j] qj Hlt Hqj; simpl in Hqj.
        -- injection Hqj as <-. intros Heq. apply Hne.
           by apply elem_of_singleton.
        -- apply (Hj j); [lia|done].
    + intros ([|i] & Hi & Hq & Hj); simpl in Hi.
      * injection Hi as <-. by left.
      * right. exists i. split; [done|]. split.
        -- apply not_elem_of_union. split; [|done].
           rewrite elem_of_singleton. intros Heq.
           by apply (Hj 0%nat q0); [lia| |].
        -- intros j qj Hlt Hqj. apply (Hj (S j)); [lia|done].
Qed.

Lemma keepNew_NoDup seen qs : NoDup (key <$> keepNew key seen qs).
Proof.
  revert seen. induction qs as [|q0 r IH]; intros seen; simpl; [constructor|].
  case_decide as Hseen; [apply IH|].
  csimpl. apply NoDup_cons. split; [|apply IH].
  intros (q & Heq & Hq)%list_elem_of_fmap.
  apply keepNew_first in Hq as (_ & _ & Hq & _).
  apply Hq, elem_of_union_l, elem_of_singleton. done.
Qed.
End KeepNew.

Section DedupeFacts.
Context (toLowerCase : jsstring → jsstring).

Let key (q : SearchQuestion) : jsstring := normalizedText toLowerCase (text q).

Lemma dedupe_loop questions seen deduped :
  (foldl (dedupeStep toLowerCase) (seen, deduped) questions).2
  = deduped ++ keepNew key seen questions.
Proof.
  revert seen deduped.
  induction questions as [|q r IH]; intros seen deduped; simpl.
  { by rewrite app_nil_r. }
  unfold dedupeStep at 2. simpl. fold (key q).
  case_decide; [apply IH|].
  rewrite IH, <-app_assoc. done.
Qed.

Lemma dedupeQuestions_keepNew questions :
  dedupeQuestions toLowerCase questions = keepNew key ∅ questions.
Proof. unfold dedupeQuestions. by rewrite dedupe_loop. Qed.

Lemma fetchSearchQuestions_shape seedKeywords maxPerKeyword :
  ∃ topKeywords,
    (length topKeywords ≤ 5)%nat
    ∧ fetchSearchQuestions toLowerCase seedKeywords maxPerKeyword
      = filter (λ q, (5 < length (text q))%nat)
          (dedupeQuestions toLowerCase
             (topKeywords ≫= λ keyword, fetchFromTavily (value keyword) google)).
Proof.
  unfold fetchSearchQuestions. case_decide.
  - exists []. split; [simpl; lia|done].
  - eexists. split; [|done]. rewrite length_take. lia.
Qed.
End DedupeFacts.

(** ** The score composition *)

Lemma Math_round_nearest x :
  (x - (1 # 2) < inject_Z (Math_round x))%Q
  ∧ (inject_Z (Math_round x) <= x + (1 # 2))%Q.
Proof.
  unfold Math_round.
  pose proof (Qfloor_le (x + (1 # 2))) as Hle.
  pose proof (Qlt_floor (x + (1 # 2))) as Hlt.
  rewrite inject_Z_plus in Hlt. split; [|done].
  change (inject_Z 1) with 1%Q in Hlt. lra.
Qed.

Lemma calculateStructureScore_values meta headings pageQuestions :
  calculateStructureScore meta headings pageQuestions ∈ [40; 50; 60; 70; 80]%Z.
Proof.
  unfold calculateStructureScore.
  destruct (presentNonBlank (title meta)), (presentNonBlank (description meta));
    repeat case_decide; vm_compute Z.min; set_solver.
Qed.

Lemma fetchFromTavily_length keyword source :
  (length (fetchFromTavily keyword source) ≤ 3)%nat.
Proof. unfold fetchFromTavily. destruct (Uri.encodeURIComponent keyword); simpl; lia. Qed.

Lemma bind_length_bound {A B} (f : A → list B) (n : nat) (l : list A) :
  (∀ x, length (f x) ≤ n)%nat → (length (l ≫= f) ≤ n * length l)%nat.
Proof.
  intros Hf. induction l as [|x l IH]; csimpl; [lia|].
  rewrite length_app. specialize (Hf x). lia.
Qed.

Lemma fetchSearchQuestions_length toLowerCase seedKeywords maxPerKeyword :
  (length (fetchSearchQuestions toLowerCase seedKeywords maxPerKeyword) ≤ 15)%nat.
Proof.
  destruct (fetchSearchQuestions_shape toLowerCase seedKeywords maxPerKeyword)
    as (top & Htop & ->).
  etransitivity; [apply length_filter|].
  etransitivity; [apply sublist_length; rewrite dedupeQuestions_keepNew;
                  apply keepNew_sublist|].
  etransitivity;
    [apply (bind_length_bound _ 3); intros; apply fetchFromTavily_length|].
  lia.
Qed.

(** Binary64 evaluation of the composition agrees with the exact value
    on every structure score and every ratio of counts that a run can
    produce (at most 15 search questions). *)
Lemma composition_table :
  Forall (λ s, Forall (λ t, Forall (λ c,
      F64.finalScore s (F64.questionCoverage c t)
      = Some (finalScore (composeScores s
                (if decide (t = 0%Z) then 0%Q else (inject_Z c / inject_Z t)%Q))))
    (seqZ 0 (t + 1))) (seqZ 0 16)) [40; 50; 60; 70; 80]%Z.
Proof. apply (bool_decide_unpack _). vm_compute. exact I. Qed.

(** The scores of a run are [runScores] of what was extracted from the
    page. *)
Lemma runAnalysis_scores `{UrlPlatform} {Html : Type} toLowerCase
    (fetchHtml : jsstring → option Html) (extractMetaAndContent : Html → Extracted)
    url result :
  runAnalysis toLowerCase fetchHtml extractMetaAndContent url = Some result →
  ∃ html, fetchHtml url = Some html
    ∧ res_searchQuestions result
      = runSearchQuestions toLowerCase (ex_meta (extractMetaAndContent html))
          (ex_headings (extractMetaAndContent html))
          (ex_contentText (extractMetaAndContent html))
    ∧ res_scores result
      = runScores toLowerCase (ex_meta (extractMetaAndContent html))
          (ex_headings (extractMetaAndContent html))
          (ex_contentText (extractMetaAndContent html))
          (ex_pageQuestions (extractMetaAndContent html))
    ∧ res_normalizedUrl result = normalizeUrl url.
Proof.
  unfold runAnalysis. destruct (fetchHtml url) as [html|]; [|done].
  intros [= <-]. by exists html.
Qed.

(** ** ASCII texts *)

Lemma keepNew_ext key1 key2 seen qs :
  Forall (λ q, key1 q = key2 q) qs →
  keepNew key1 seen qs = keepNew key2 seen qs.
Proof.
  intros H. revert seen. induction H as [|q r Hq _ IH]; intros seen; simpl; [done|].
  rewrite Hq. case_decide; by rewrite IH.
Qed.

Lemma dedupeQuestions_ascii toLowerCase qs :
  ascii_exact toLowerCase →
  Forall (λ q, Forall (λ c, c < 128) (text q)) qs →
  dedupeQuestions toLowerCase qs = dedupeQuestions lowerAscii qs.
Proof.
  intros Hlow Hqs. rewrite !dedupeQuestions_keepNew. apply keepNew_ext.
  eapply Forall_impl; [exact Hqs|]. intros q Hq. simpl.
  unfold normalizedText. by rewrite Hlow.
Qed.

(** ** [trim] *)

Lemma trimStart_split s :
  ∃ l, s = l ++ trimStart s ∧ Forall (λ c, isWhiteSpace c = true) l.
Proof.
  induction s as [|c r (l & Hr & Hl)]; simpl.
  { by exists []. }
  destruct (isWhiteSpace c) eqn:Hc.
  - exists (c :: l). split; [simpl; by rewrite <-Hr|by constructor].
  - by exists [].
Qed.

Lemma trimStart_head s c : head (trimStart s) = Some c → isWhiteSpace c = false.
Proof.
  induction s as [|c' r IH]; simpl; [done|].
  destruct (isWhiteSpace c') eqn:Hc; [done|]. simpl. by intros [= <-].
Qed.

Lemma trimStart_fixed s :
  (∀ c, head s = Some c → isWhiteSpace c = false) → trimStart s = s.
Proof. destruct s as [|c r]; simpl; [done|]. intros H. by rewrite (H c). Qed.

Lemma trimStart_white s :
  trimStart s = [] ↔ Forall (λ c, isWhiteSpace c = true) s.
Proof.
  induction s as [|c r IH]; simpl; [by split; [constructor|]|].
  destruct (isWhiteSpace c) eqn:Hc.
  - rewrite IH. split; [by constructor|]. by intros [_ ?]%Forall_cons.
  - split; [done|]. intros [? _]%Forall_cons. congruence.
Qed.

Lemma trim_split s :
  ∃ l r, s = l ++ trim s ++ r
         ∧ Forall (λ c, isWhiteSpace c = true) l
         ∧ Forall (λ c, isWhiteSpace c = true) r.
Proof.
  destruct (trimStart_split s) as (l & Hs & Hl).
  destruct (trimStart_split (reverse (trimStart s))) as (r & Hr & Hrw).
  exists l, (reverse r). split; [|split; [done|by apply Forall_reverse]].
  unfold trim, trimEnd. rewrite <-reverse_app, <-Hr, reverse_involutive. done.
Qed.

Lemma trim_last s c : last (trim s) = Some c → isWhiteSpace c = false.
Proof.
  unfold trim, trimEnd. rewrite last_reverse. apply trimStart_head.
Qed.

Lemma trim_head s c : head (trim s) = Some c → isWhiteSpace c = false.
Proof.
  unfold trim, trimEnd. rewrite head_reverse. intros Hl.
  pose proof (trimStart_head s) as Hh.
  destruct (trimStart_split (reverse (trimStart s))) as (w & Hr & Hw).
  apply (f_equal reverse) in Hr. rewrite reverse_involutive, reverse_app in Hr.
  destruct (reverse (trimStart (reverse (trimStart s)))) as [|c0 t] eqn:E.
  { rewrite <-(reverse_involutive (trimStart _)), E in Hl. done. }
  apply Hh. rewrite Hr. simpl.
  rewrite <-(reverse_involutive (trimStart (reverse (trimStart s)))), E in Hl.
  rewrite last_reverse in Hl. simpl in Hl. done.
Qed.

Lemma trim_fixed s :
  (∀ c, head s = Some c → isWhiteSpace c = false) →
  (∀ c, last s = Some c → isWhiteSpace c = false) →
  trim s = s.
Proof.
  intros Hh Hl. unfold trim, trimEnd. rewrite (trimStart_fixed s Hh).
  rewrite trimStart_fixed; [apply reverse_involutive|].
  intros c. rewrite head_reverse. apply Hl.
Qed.

Lemma trim_idemp s : trim (trim s) = trim s.
Proof. apply trim_fixed; [apply trim_head|apply trim_last]. Qed.

Lemma trim_white s : trim s = [] ↔ Forall (λ c, isWhiteSpace c = true) s.
Proof.
  split.
  - intros Ht. destruct (trim_split s) as (l & r & Hs & Hl & Hr).
    rewrite Ht in Hs. rewrite Hs. simpl. by apply Forall_app.
  - intros Hw. unfold trim, trimEnd.
    apply trimStart_white in Hw. rewrite Hw. done.
Qed.

(** ** Tokens and keywords *)

Lemma fields_pieces C s p :
  p ∈ fields C s → Forall (λ c, C c = true) p.
Proof.
  revert p. induction s as [|c r IH]; simpl; intros p Hp.
  { apply list_elem_of_singleton in Hp as ->. constructor. }
  destruct (C c) eqn:Hc.
  - destruct (fields C r) as [|p0 ps] eqn:E.
    + apply list_elem_of_singleton in Hp as ->. by repeat constructor.
    + apply elem_of_cons in Hp as [->|Hp].
      * constructor; [done|]. apply IH. left.
      * apply IH. by right.
  - apply elem_of_cons in Hp as [->|Hp]; [constructor|by apply IH].
Qed.

Lemma maximalRuns_pieces C s p :
  p ∈ maximalRuns C s → p ≠ [] ∧ Forall (λ c, C c = true) p.
Proof.
  unfold maximalRuns. intros [Hne Hp]%list_elem_of_filter.
  split; [done|by eapply fields_pieces].
Qed.

Lemma tokenize_elem toLowerCase rawText t :
  t ∈ tokenize toLowerCase rawText
  ↔ t ∈ maximalRuns isKeywordChar (toLowerCase rawText)
    ∧ keepToken t ∧ t ∉ STOP_WORDS.
Proof.
  unfold tokenize.
  rewrite (replace_runs_tokens _ isKeywordChar_not_white).
  rewrite !list_elem_of_filter. tauto.
Qed.

Lemma ratio_pos c m :
  (0 < c)%Z → (0 < m)%Z → (0 < inject_Z c / inject_Z m)%Q.
Proof.
  intros Hc Hm. destruct m as [|p|p]; try lia.
  unfold Qlt, Qdiv, Qmult, Qinv, inject_Z. simpl. nia.
Qed.

Lemma rankEntries_NoDup tokens : NoDup (value <$> rankEntries (tally tokens)).
Proof.
  rewrite rankEntries_values.
  eapply sublist_NoDup; [|apply fmap_sublist, sublist_take].
  rewrite sorted_keys. apply firstSeen_NoDup.
Qed.

Lemma firstSeen_length_le l : (length (firstSeen l) ≤ length l)%nat.
Proof.
  induction l as [|x l IH]; simpl; [done|].
  pose proof (length_filter (λ y, y ≠ x) (firstSeen l)). lia.
Qed.

Lemma rankEntries_count tokens :
  length (rankEntries (tally tokens)) = (10 `min` length (firstSeen tokens))%nat.
Proof.
  rewrite rankEntries_unfold, length_fmap, length_take, Array_sort_length.
  unfold tally. by rewrite length_fmap.
Qed.

(** Counting one more token adds one to the sum of the counts. *)
Lemma JsMap_total_bump (m : JsMap.t) k :
  totalCount (JsMap.set m k (default 0%Z (JsMap.get m k) + 1)%Z)
  = (totalCount m + 1)%Z.
Proof.
  unfold totalCount.
  induction m as [|[k' v'] m IH]; simpl; [done|].
  case_decide; simpl; [lia|]. rewrite IH. lia.
Qed.

Lemma countTokens_total tokens :
  totalCount (countTokens tokens) = Z.of_nat (length tokens).
Proof.
  induction tokens as [|x l IH] using rev_ind; [done|].
  unfold countTokens in *. rewrite foldl_snoc, JsMap_total_bump, IH, length_app.
  simpl. lia.
Qed.

(** Joining runs of a class with spaces and cutting the result into its
    maximal runs gives the runs back. *)
Lemma fields_join C l :
  C SP = false →
  Forall (λ t, Forall (λ c, C c = true) t) l → l ≠ [] →
  fields C (join_sp l) = l.
Proof.
  intros HSP Hl Hne. induction Hl as [|t l Ht Hl IH]; [done|]. clear Hne.
  assert (∀ rest ps, fields C rest = ps → ∀ p0, ps = p0 :: tail ps →
            fields C (t ++ rest) = (t ++ p0) :: tail ps) as Happ.
  { intros rest ps <- p0 Hps. induction Ht as [|c t Hc Ht IHt]; simpl; [done|].
    by rewrite Hc, IHt. }
  destruct l as [|t' l'].
  - simpl. rewrite <-(app_nil_r t) at 1.
    rewrite (Happ [] [[]] eq_refl []); [|done]. by rewrite app_nil_r.
  - change (join_sp (t :: t' :: l')) with (t ++ SP :: join_sp (t' :: l')).
    rewrite (Happ (SP :: join_sp (t' :: l')) _ eq_refl []).
    + simpl. rewrite HSP. simpl. rewrite app_nil_r. f_equal. by apply IH.
    + simpl. by rewrite HSP.
Qed.

Lemma maximalRuns_join C l :
  C SP = false →
  Forall (λ t, t ≠ [] ∧ Forall (λ c, C c = true) t) l →
  maximalRuns C (join_sp l) = l.
Proof.
  intros HSP Hl. destruct l as [|t l]; [done|].
  unfold maximalRuns. rewrite fields_join; [|done| |done].
  - induction Hl as [|x r [Hx _] _ IH]; [done|].
    rewrite filter_cons_True by done. by rewrite IH.
  - eapply Forall_impl; [exact Hl|]. by intros ? [_ ?].
Qed.

Lemma filter_all {A} (P : A → Prop) `{∀ x, Decision (P x)} (l : list A) :
  Forall P l → filter P l = l.
Proof.
  induction 1 as [|x l Hx _ IH]; [done|].
  rewrite filter_cons_True by done. by rewrite IH.
Qed.

Lemma keywordClass_no_surrogate c :
  keywordClass c → Uri.isLead c = false ∧ Uri.isTrail c = false.
Proof.
  unfold keywordClass, Uri.isLead, Uri.isTrail. intros Hc.
  split; apply andb_false_iff; rewrite !N.leb_gt; lia.
Qed.

(** ** More on deduplication and the provider *)

Lemma keepNew_fresh_id key seen qs :
  NoDup (key <$> qs) → Forall (λ q, key q ∉ seen) qs →
  keepNew key seen qs = qs.
Proof.
  revert seen. induction qs as [|q r IH]; intros seen Hnd Hfresh; [done|].
  csimpl in Hnd. apply NoDup_cons in Hnd as [Hq Hnd].
  apply Forall_cons in Hfresh as [Hq' Hfresh]. simpl.
  rewrite decide_False by done. f_equal. apply IH; [done|].
  apply Forall_forall. intros q' Hin.
  rewrite Forall_forall in Hfresh.
  apply not_elem_of_union. split; [|by apply Hfresh].
  rewrite elem_of_singleton. intros Heq. apply Hq.
  rewrite <-Heq. by apply list_elem_of_fmap_2.
Qed.

Lemma keepNew_nil_inv key seen qs :
  Forall (λ q, key q ∉ seen) qs → keepNew key seen qs = [] → qs = [].
Proof.
  destruct qs as [|q r]; [done|]. intros [Hq _]%Forall_cons. simpl.
  by rewrite decide_False.
Qed.

Lemma encodeURIComponent_total s :
  Forall (λ c, Uri.isLead c = false ∧ Uri.isTrail c = false) s →
  is_Some (Uri.encodeURIComponent s).
Proof.
  induction 1 as [|c r [Hl Ht] _ [e IH]]; simpl; [by eexists|].
  rewrite IH, Hl, Ht. simpl. destruct (Uri.isUnreserved c); by eexists.
Qed.

Lemma fetchFromTavily_three keyword src :
  is_Some (Uri.encodeURIComponent keyword) →
  length (fetchFromTavily keyword src) = 3%nat.
Proof. intros [e He]. unfold fetchFromTavily. by rewrite He. Qed.

Lemma fetchFromTavily_each keyword src q :
  q ∈ fetchFromTavily keyword src →
  source q = src ∧ keyword `prefix_of` text q
  ∧ (length keyword + 14 ≤ length (text q))%nat
  ∧ ∃ e, Uri.encodeURIComponent keyword = Some e
         ∧ url q = Some (js "https://example.com/search?q=" ++ e).
Proof.
  unfold fetchFromTavily.
  destruct (Uri.encodeURIComponent keyword) as [e|]; [|by intros ?%elem_of_nil].
  intros Hq. repeat (apply elem_of_cons in Hq as [->|Hq]);
    [| | |by apply elem_of_nil in Hq]; simpl;
    (split; [done|]); (split; [by eexists|]);
    (split; [rewrite length_app; vm_compute (length (js _)); lia|]);
    by exists e.
Qed.

(** The sign of a difference of rationals. *)
Lemma Qsign_le a b : (Qsign (b - a) ≤ 0)%Z ↔ (b <= a)%Q.
Proof.
  unfold Qsign. rewrite Z.sgn_nonpos.
  destruct a as [an ad], b as [bn bd].
  unfold Qle, Qminus, Qplus, Qopp. simpl. lia.
Qed.

(** Sorting a list that is already in order changes nothing. *)
Lemma Array_sort_sorted {A} (cmp : A → A → Z) (l : list A) :
  StronglySorted (λ a b, (cmp a b ≤ 0)%Z) l → Array_sort cmp l = l.
Proof.
  induction 1 as [|x l Hs IH Hx]; simpl; [done|].
  rewrite IH. destruct l as [|y l']; [done|]. simpl.
  apply Forall_cons in Hx as [Hxy _]. by rewrite decide_True.
Qed.

(** The sort is stable: elements that compare as equal keep their
    relative order. *)
Lemma Array_sort_stable {A} (cmp : A → A → Z) (P : A → Prop)
    `{∀ x, Decision (P x)} (l : list A) :
  (∀ x y, P x → P y → (cmp x y ≤ 0)%Z) →
  filter P (Array_sort cmp l) = filter P l.
Proof.
  intros Heq.
  assert (∀ x s, P x → filter P (sort_insert cmp x s) = x :: filter P s) as Hin.
  { intros x s Hx. induction s as [|y s IH]; simpl.
    - by rewrite filter_cons_True.
    - case_decide as Hc.
      + by rewrite filter_cons_True.
      + rewrite !filter_cons. case_decide as Hy.
        * exfalso. apply Hc. by apply Heq.
        * done. }
  assert (∀ x s, ¬ P x → filter P (sort_insert cmp x s) = filter P s) as Hout.
  { intros x s Hx. induction s as [|y s IH]; simpl.
    - by rewrite filter_cons_False.
    - case_decide as Hc.
      + by rewrite filter_cons_False.
      + rewrite !filter_cons. by rewrite IH. }
  induction l as [|x l IH]; simpl; [done|].
  rewrite filter_cons. case_decide.
  - by rewrite Hin, IH.
  - by rewrite Hout, IH.
Qed.

Lemma Array_sort_descending {A} (cmp : A → A → Z) (l : list A) :
  (∀ a b, (cmp a b ≤ 0)%Z ∨ (cmp b a ≤ 0)%Z) →
  (∀ a b c, (cmp a b ≤ 0)%Z → (cmp b c ≤ 0)%Z → (cmp a c ≤ 0)%Z) →
  StronglySorted (λ a b, (cmp a b ≤ 0)%Z) (Array_sort cmp l).
Proof.
  intros Htot Htrans.
  assert (∀ x s, StronglySorted (λ a b, (cmp a b ≤ 0)%Z) s →
                 StronglySorted (λ a b, (cmp a b ≤ 0)%Z) (sort_insert cmp x s))
    as Hins.
  { intros x s. induction s as [|y s IH]; simpl; intros Hs.
    - repeat constructor.
    - apply StronglySorted_cons in Hs as [Hy Hs]. case_decide as Hc.
      + apply StronglySorted_cons. split; [|by apply StronglySorted_cons].
        apply Forall_cons. split; [done|].
        eapply Forall_impl; [exact Hy|]. intros z Hz. by eapply Htrans.
      + apply StronglySorted_cons. split; [|by apply IH].
        rewrite sort_insert_perm. apply Forall_cons. split; [|done].
        destruct (Htot x y); [done|done]. }
  induction l as [|x l IH]; simpl; [constructor|]. by apply Hins.
Qed.

(** The length filter of [fetchSearchQuestions] removes nothing. *)
Lemma fetchSearchQuestions_dedupe toLowerCase seedKeywords maxPerKeyword :
  fetchSearchQuestions toLowerCase seedKeywords maxPerKeyword
  = dedupeQuestions toLowerCase
      (take 5 (Array_sort (λ a b, Qsign (score b - score a)) seedKeywords)
         ≫= λ keyword, fetchFromTavily (value keyword) google).
Proof.
  unfold fetchSearchQuestions. case_decide as Hlen.
  { apply nil_length_inv in Hlen. subst seedKeywords. done. }
  apply filter_all. apply Forall_forall. intros q Hq.
  rewrite dedupeQuestions_keepNew in Hq.
  assert (q ∈ take 5 (Array_sort (λ a b, Qsign (score b - score a)) seedKeywords)
                ≫= λ keyword, fetchFromTavily (value keyword) google) as Hin.
  { eapply elem_of_sublist; [exact Hq|apply keepNew_sublist]. }
  apply list_elem_of_bind in Hin as (kw & Hin & _).
  apply fetchFromTavily_each in Hin as (_ & _ & Hlen' & _). lia.
Qed.

Lemma extractSeedKeywords_class toLowerCase meta headings contentText kw :
  kw ∈ extractSeedKeywords toLowerCase meta headings contentText →
  Forall keywordClass (value kw).
Proof.
  pose proof (extractSeedKeywords_cases toLowerCase meta headings contentText) as H.
  cbv zeta in H. destruct H as [[-> _]|[-> _]]; [by intros ?%elem_of_nil|].
  intros (Hin & _)%rankEntries_tokens.
  apply tokenize_elem in Hin as (Hrun & _ & _).
  apply maximalRuns_pieces in Hrun as [_ Hk].
  eapply Forall_impl; [exact Hk|]. intros c. apply isKeywordChar_spec.
Qed.

Lemma extractSeedKeywords_sorted toLowerCase meta headings contentText :
  StronglySorted (λ a b, (Qsign (score b - score a) ≤ 0)%Z)
    (extractSeedKeywords toLowerCase meta headings contentText).
Proof.
  pose proof (extractSeedKeywords_cases toLowerCase meta headings contentText) as H.
  cbv zeta in H. destruct H as [[-> _]|[-> _]]; [constructor|].
  destruct (rankEntries_scores (tokenize toLowerCase
    (join_sp (textParts meta headings contentText)))) as (_ & Hs & _).
  eapply StronglySorted_impl_elem; [|exact Hs].
  intros a b _ _ Hab. by apply Qsign_le.
Qed.

Lemma bind_length_exact {A B} (f : A → list B) (n : nat) (l : list A) :
  Forall (λ x, length (f x) = n) l → length (l ≫= f) = (n * length l)%nat.
Proof.
  induction 1 as [|x l Hx _ IH]; csimpl; [lia|].
  rewrite length_app, Hx, IH. lia.
Qed.

(** ** More on coverage and the composed score *)

Lemma filter_length_mono {A} (P Q : A → Prop) `{∀ x, Decision (P x)}
    `{∀ x, Decision (Q x)} (l : list A) :
  (∀ x, x ∈ l → P x → Q x) → (length (filter P l) ≤ length (filter Q l))%nat.
Proof.
  induction l as [|x l IH]; intros HPQ; [done|].
  rewrite !filter_cons.
  assert (length (filter P l) ≤ length (filter Q l))%nat as Hl.
  { apply IH. intros y Hy. apply HPQ. by right. }
  destruct (decide (P x)) as [Hx|Hx].
  - rewrite decide_True by (apply HPQ; [left|done]). simpl. lia.
  - case_decide; simpl; lia.
Qed.

Lemma filter_length_all {A} (P : A → Prop) `{∀ x, Decision (P x)} (l : list A) :
  length (filter P l) = length l ↔ Forall P l.
Proof.
  split; [|intros Hall; by rewrite filter_all].
  induction l as [|x l IH]; [constructor|].
  rewrite filter_cons. pose proof (length_filter P l).
  case_decide; simpl; [|lia]. intros [=]. constructor; [done|by apply IH].
Qed.

Lemma filter_length_none {A} (P : A → Prop) `{∀ x, Decision (P x)} (l : list A) :
  length (filter P l) = 0%nat ↔ Forall (λ x, ¬ P x) l.
Proof.
  induction l as [|x l IH]; [by split; [constructor|]|].
  rewrite filter_cons, Forall_cons. case_decide; simpl.
  - split; [done|]. by intros [? _].
  - rewrite IH. tauto.
Qed.

Section CoverageOrder.
Context (toLowerCase : jsstring → jsstring).

Lemma isCovered_more searchTokens pageQuestions pageQuestions' :
  pageQuestions ⊆ pageQuestions' →
  isCovered toLowerCase searchTokens pageQuestions = true →
  isCovered toLowerCase searchTokens pageQuestions' = true.
Proof.
  intros Hsub. rewrite !isCovered_spec.
  intros (pq & t & Hpq & Ht). exists pq, t. split; [by apply Hsub|done].
Qed.

Lemma coveredCount_more pageQuestions pageQuestions' searchQuestions :
  pageQuestions ⊆ pageQuestions' →
  (coveredCount toLowerCase pageQuestions searchQuestions
   ≤ coveredCount toLowerCase pageQuestions' searchQuestions)%Z.
Proof.
  intros Hsub. rewrite !coveredCount_filter. apply inj_le.
  apply filter_length_mono. intros sq _. by apply isCovered_more.
Qed.

Lemma calculateQuestionCoverage_more pageQuestions pageQuestions' searchQuestions :
  pageQuestions ⊆ pageQuestions' →
  (calculateQuestionCoverage toLowerCase pageQuestions searchQuestions
   <= calculateQuestionCoverage toLowerCase pageQuestions' searchQuestions)%Q.
Proof.
  intros Hsub. unfold calculateQuestionCoverage. case_decide; [apply Qle_refl|].
  apply ratio_le; [lia|]. by apply coveredCount_more.
Qed.

Lemma coveredCount_same pageQuestions pageQuestions' searchQuestions :
  pageQuestions ⊆ pageQuestions' → pageQuestions' ⊆ pageQuestions →
  coveredCount toLowerCase pageQuestions searchQuestions
  = coveredCount toLowerCase pageQuestions' searchQuestions.
Proof.
  intros H1 H2. apply Z.le_antisymm; by apply coveredCount_more.
Qed.

End CoverageOrder.

Lemma ratio_eq_one c m :
  (0 < m)%Z → (inject_Z c / inject_Z m == 1)%Q ↔ c = m.
Proof.
  intros Hm. destruct m as [|p|p]; try lia.
  unfold Qeq, Qdiv, Qmult, Qinv, inject_Z. simpl. lia.
Qed.

Lemma ratio_eq_zero c m :
  (0 < m)%Z → (inject_Z c / inject_Z m == 0)%Q ↔ c = 0%Z.
Proof.
  intros Hm. destruct m as [|p|p]; try lia.
  unfold Qeq, Qdiv, Qmult, Qinv, inject_Z. simpl. lia.
Qed.

Lemma Math_round_mono x y : (x <= y)%Q → (Math_round x ≤ Math_round y)%Z.
Proof.
  intros Hxy. unfold Math_round. apply Qfloor_resp_le. lra.
Qed.

Lemma composeScores_range s r :
  (40 ≤ s ≤ 80)%Z → (0 <= r)%Q → (r <= 1)%Q →
  (0 <= questionCoverage (composeScores s r))%Q
  ∧ (questionCoverage (composeScores s r) <= 100)%Q
  ∧ (16 ≤ finalScore (composeScores s r) ≤ 92)%Z.
Proof.
  intros [Hs1 Hs2] Hr0 Hr1. simpl.
  rewrite Zle_Qle in Hs1, Hs2.
  change (inject_Z 40) with 40%Q in Hs1. change (inject_Z 80) with 80%Q in Hs2.
  split; [lra|]. split; [lra|]. split.
  - change 16%Z with (Math_round 16). apply Math_round_mono. lra.
  - change 92%Z with (Math_round 92). apply Math_round_mono. lra.
Qed.

Lemma composeScores_mono s s' r r' :
  (s ≤ s')%Z → (r <= r')%Q →
  (finalScore (composeScores s r) ≤ finalScore (composeScores s' r'))%Z.
Proof.
  intros Hs Hr. simpl. apply Math_round_mono.
  rewrite Zle_Qle in Hs. lra.
Qed.

Lemma calculateStructureScore_range meta headings pageQuestions :
  (40 ≤ calculateStructureScore meta headings pageQuestions ≤ 80)%Z.
Proof.
  pose proof (calculateStructureScore_values meta headings pageQuestions) as Hs.
  repeat (apply elem_of_cons in Hs as [->|Hs]; [lia|]).
  by apply elem_of_nil in Hs.
Qed.

Lemma calculateStructureScore_more meta headings pageQuestions extra :
  (calculateStructureScore meta headings pageQuestions
   ≤ calculateStructureScore meta headings (pageQuestions ++ extra))%Z.
Proof.
  unfold calculateStructureScore. rewrite length_app.
  destruct (presentNonBlank (title meta)), (presentNonBlank (description meta));
    repeat case_decide; lia.
Qed.

(** Binary64 arithmetic gives the exact final score of a run. *)
Lemma runFinalScore64_exact toLowerCase meta headings contentText pageQuestions :
  runFinalScore64 toLowerCase meta headings contentText pageQuestions
  = Some (finalScore (runScores toLowerCase meta headings contentText pageQuestions)).
Proof.
  unfold runFinalScore64, runScores.
  set (searchQuestions := runSearchQuestions toLowerCase meta headings contentText).
  set (s := calculateStructureScore meta headings pageQuestions).
  pose proof (calculateStructureScore_values meta headings pageQuestions) as Hs.
  fold s in Hs.
  pose proof (fetchSearchQuestions_length toLowerCase
    (extractSeedKeywords toLowerCase meta headings contentText) 5) as Ht.
  fold (runSearchQuestions toLowerCase meta headings contentText) in Ht.
  fold searchQuestions in Ht.
  pose proof (coveredCount_bounds toLowerCase pageQuestions searchQuestions) as Hc.
  pose proof composition_table as Htab.
  rewrite Forall_forall in Htab. specialize (Htab s Hs).
  rewrite Forall_forall in Htab.
  specialize (Htab (Z.of_nat (length searchQuestions))).
  rewrite Forall_forall in Htab.
  rewrite Htab.
  - unfold calculateQuestionCoverage.
    destruct (decide (length searchQuestions = 0%nat)) as [H0|H0].
    + rewrite decide_True by lia. done.
    + rewrite decide_False by lia. done.
  - apply elem_of_seqZ. lia.
  - apply elem_of_seqZ. lia.
Qed.

(** ** Question detection *)

Lemma startsWith_spec s p : startsWith s p = true ↔ ∃ r, s = p ++ r.
Proof.
  unfold startsWith. rewrite bool_decide_eq_true. split.
  - intros H. exists (drop (length p) s). by rewrite <-H at 1; rewrite take_drop.
  - intros (r & ->). by rewrite take_app_length.
Qed.

Lemma includesStr_spec hay needle : includesStr hay needle = true ↔ infix needle hay.
Proof.
  unfold infix. induction hay as [|c hay IH]; simpl.
  - rewrite bool_decide_eq_true. split.
    + intros ->. by exists [], [].
    + intros (l & r & H). symmetry in H.
      apply app_eq_nil in H as [_ H]. by apply app_eq_nil in H as [? _].
  - rewrite orb_true_iff, startsWith_spec, IH. split.
    + intros [(r & ->)|(l & r & ->)]; [by exists [], r|by exists (c :: l), r].
    + intros ([|c' l] & r & H); simpl in H.
      * left. by exists r.
      * right. injection H as -> ->. by exists l, r.
Qed.

Lemma infix_trans a b c : infix a b → infix b c → infix a c.
Proof.
  intros (l1 & r1 & ->) (l2 & r2 & ->). exists (l2 ++ l1), (r1 ++ r2).
  by rewrite <-!app_assoc.
Qed.

Lemma trim_infix s : infix (trim s) s.
Proof. destruct (trim_split s) as (l & r & H & _). by exists l, r. Qed.

(** The two loops as filters. *)
Lemma push_loop {A} (f : A → bool) (l acc : list A) :
  foldl (λ out x, if f x then out ++ [x] else out) acc l
  = acc ++ filter (λ x, f x = true) l.
Proof.
  revert acc. induction l as [|x l IH]; intros acc; simpl.
  { by rewrite app_nil_r. }
  rewrite IH, filter_cons. destruct (f x); simpl.
  - by rewrite <-app_assoc.
  - done.
Qed.

Lemma extractQuestions_filter text :
  extractQuestions text
  = filter (λ s, looksLikeQuestion s = true)
      (filter (λ s, (10 < length s)%nat) (trim <$> split_sentences text)).
Proof. unfold extractQuestions. by rewrite push_loop. Qed.

Lemma extractQuestionCandidatesFromText_filter text src link :
  extractQuestionCandidatesFromText text src link
  = (λ s, {| source := src; text := s; url := link |})
      <$> filter (λ s, (5 < length s)%nat ∧ looksLikeQuestion s = true)
            (trim <$> split_sentences text).
Proof.
  unfold extractQuestionCandidatesFromText.
  generalize (trim <$> split_sentences text). intros l.
  enough (∀ acc,
    foldl (λ questions sentence,
             if decide (length sentence ≤ 5)%nat then questions
             else if looksLikeQuestion sentence
             then questions ++ [ {| source := src; text := sentence; url := link |} ]
             else questions) acc l
    = acc ++ ((λ s, {| source := src; text := s; url := link |})
               <$> filter (λ s, (5 < length s)%nat ∧ looksLikeQuestion s = true) l))
    as H by apply (H []).
  induction l as [|x l IH]; intros acc; simpl.
  { by rewrite app_nil_r. }
  rewrite IH, filter_cons. case_decide as Hlen.
  - rewrite decide_False by lia. done.
  - destruct (looksLikeQuestion x) eqn:E.
    + rewrite decide_True by (split; [lia|done]). csimpl.
      by rewrite <-app_assoc.
    + rewrite decide_False by (by intros [_ ?]). done.
Qed.

(** Pieces of the sentence split. *)
Lemma hasSeparator_app a b :
  hasSeparator (a ++ b) = false → hasSeparator a = false ∧ hasSeparator b = false.
Proof.
  induction a as [|c a IH]; simpl; [done|].
  rewrite !orb_false_iff. intros [Hc Hr]. destruct (IH Hr) as [Ha Hb].
  split; [|done]. split; [|done].
  destruct (isTerminator c); [|done]. simpl in *.
  destruct a as [|w a']; [done|]. exact Hc.
Qed.

Lemma hasSeparator_infix a b : infix a b → hasSeparator b = false → hasSeparator a = false.
Proof.
  intros (l & r & ->) H. apply hasSeparator_app in H as [_ H].
  by apply hasSeparator_app in H as [H _].
Qed.

Lemma split_sentences_from_pieces skipping s :
  ∃ p ps,
    split_sentences_from skipping s = p :: ps
    ∧ Forall (λ q, hasSeparator q = false ∧ infix q s) (p :: ps)
    ∧ (skipping = false →
       (p = [] ∨ ∃ c p' r, p = c :: p' ∧ s = c :: r)
       ∧ ∃ r, s = p ++ r).
Proof.
  revert skipping. induction s as [|c r IH]; intros skipping.
  { exists [], []. simpl. split; [done|]. split.
    - repeat constructor. by exists [], [].
    - intros _. split; [by left|by exists []]. }
  assert (∀ q, infix q r → infix q (c :: r)) as Hinf.
  { intros q (l & t & ->). by exists (c :: l), t. }
  simpl. destruct (skipping && isWhiteSpace c) eqn:Hskip.
  - destruct (IH true) as (p & ps & -> & Hall & _).
    exists p, ps. split; [done|]. split.
    + eapply Forall_impl; [exact Hall|]. intros q [? ?]. split; [done|by apply Hinf].
    + intros ->. done.
  - destruct (isTerminator c
              && match r with c' :: _ => isWhiteSpace c' | [] => false end) eqn:Hsep.
    + destruct (IH true) as (p & ps & -> & Hall & _).
      exists [], (p :: ps). split; [done|]. split.
      * constructor; [split; [done|by exists [], (c :: r)]|].
        eapply Forall_impl; [exact Hall|]. intros q [? ?].
        split; [done|by apply Hinf].
      * intros _. split; [by left|by exists (c :: r)].
    + destruct (IH false) as (p & ps & -> & Hall & Hhead).
      destruct (Hhead eq_refl) as [Hp (t & Ht)].
      exists (c :: p), ps. split; [done|].
      apply Forall_cons in Hall as [[Hsepp Hinfp] Hall]. split.
      * constructor.
        -- split; [|exists [], t; simpl; by rewrite Ht at 1].
           simpl. rewrite Hsepp, orb_false_r.
           destruct Hp as [->|(c' & p' & r' & -> & ->)]; [by rewrite andb_false_r|].
           exact Hsep.
        -- eapply Forall_impl; [exact Hall|]. intros q [? ?].
           split; [done|by apply Hinf].
      * intros _. split; [right; by exists c, p, r|].
        exists t. simpl. by rewrite Ht at 1.
Qed.

Lemma split_sentences_pieces text q :
  q ∈ split_sentences text → hasSeparator q = false ∧ infix q text.
Proof.
  unfold split_sentences.
  destruct (split_sentences_from_pieces false text) as (p & ps & -> & Hall & _).
  rewrite Forall_forall in Hall. apply Hall.
Qed.

(** A text without separator is one sentence. *)
Lemma split_sentences_single text :
  hasSeparator text = false → split_sentences text = [text].
Proof.
  unfold split_sentences. induction text as [|c r IH]; simpl; [done|].
  rewrite orb_false_iff. intros [Hc Hr]. rewrite Hc, (IH Hr). done.
Qed.

Lemma white_no_separator s :
  Forall (λ c, isWhiteSpace c = true) s → hasSeparator s = false.
Proof.
  induction 1 as [|c r Hc _ IH]; simpl; [done|]. rewrite IH, orb_false_r.
  assert (isTerminator c = false) as ->; [|done].
  unfold isTerminator. unfold isWhiteSpace in Hc.
  destruct (c =? 0x2E) eqn:E1; [apply N.eqb_eq in E1; subst; done|].
  destruct (c =? 0x21) eqn:E2; [apply N.eqb_eq in E2; subst; done|].
  destruct (c =? 0x3F) eqn:E3; [apply N.eqb_eq in E3; subst; done|]. done.
Qed.

(** When every question mark is followed by whitespace, the split
    consumes them all. *)
Lemma split_sentences_from_marks skipping s :
  marksSpaced s = true →
  Forall (λ p, 0x3F ∉ p) (split_sentences_from skipping s).
Proof.
  revert skipping. induction s as [|c r IH]; intros skipping; simpl.
  { intros _. repeat constructor. by intros ?%elem_of_nil. }
  rewrite andb_true_iff. intros [Hc Hr].
  destruct (skipping && isWhiteSpace c); [by apply IH|].
  destruct (isTerminator c
            && match r with c' :: _ => isWhiteSpace c' | [] => false end) eqn:Hsep.
  { constructor; [by intros ?%elem_of_nil|by apply IH]. }
  specialize (IH false Hr).
  destruct (split_sentences_from false r) as [|p ps].
  { repeat constructor. intros Heq%list_elem_of_singleton. subst c.
    simpl in Hc, Hsep. unfold isTerminator in Hsep. simpl in Hsep.
    destruct r; simpl in *; congruence. }
  apply Forall_cons in IH as [Hp Hps]. constructor; [|done].
  intros [Heq|Hin]%elem_of_cons; [subst c|done].
  unfold isTerminator in Hsep. simpl in Hc, Hsep.
  destruct r as [|w r']; [done|]. simpl in *. congruence.
Qed.

Lemma infix_elem c a b : infix a b → c ∈ a → c ∈ b.
Proof. intros (l & r & ->) Hc. rewrite !elem_of_app. tauto. Qed.

Lemma looksLikeQuestion_spec s :
  looksLikeQuestion s = true
  ↔ 0x3F ∈ s ∨ ∃ keyword, keyword ∈ questionKeywords ∧ infix keyword s.
Proof.
  unfold looksLikeQuestion. rewrite orb_true_iff, includesStr_spec, existsb_exists.
  split.
  - intros [Hq|(k & Hk & Hinc)].
    + left. eapply infix_elem; [exact Hq|]. change (js "?") with [0x3F]. left.
    + right. exists k. split; [by apply list_elem_of_In|by apply includesStr_spec].
  - intros [Hq|(k & Hk & Hinc)].
    + left. apply list_elem_of_split in Hq as (l & r & ->). by exists l, r.
    + right. exists k. split; [by apply list_elem_of_In|by apply includesStr_spec].
Qed.

(** ** The extracted page *)

Lemma replace_runs_singleSpaced s : singleSpaced (replace_runs isWhiteSpace s) = true.
Proof.
  induction s as [|c r IH]; [done|].
  cbn [replace_runs]. destruct (isWhiteSpace c) eqn:Hc.
  - destruct r as [|c' r']; [done|].
    destruct (isWhiteSpace c') eqn:Hc'; [exact IH|].
    cbn [replace_runs] in IH |- *. rewrite Hc' in IH |- *.
    cbn [singleSpaced] in IH |- *. rewrite Hc' in IH |- *.
    simpl in IH |- *. exact IH.
  - cbn [singleSpaced]. by rewrite Hc, IH.
Qed.

Lemma singleSpaced_app a b :
  singleSpaced (a ++ b) = true → singleSpaced a = true ∧ singleSpaced b = true.
Proof.
  induction a as [|c a IH]; simpl; [done|].
  rewrite !andb_true_iff. intros [Hc Hr]. destruct (IH Hr) as [Ha Hb].
  split; [|done]. split; [|done].
  destruct (isWhiteSpace c); [|done]. simpl in *.
  destruct (c =? SP); [|done]. simpl in *.
  destruct a as [|w a']; [done|]. exact Hc.
Qed.

Lemma singleSpaced_infix a b : infix a b → singleSpaced b = true → singleSpaced a = true.
Proof.
  intros (l & r & ->) H. apply singleSpaced_app in H as [_ H].
  by apply singleSpaced_app in H as [H _].
Qed.

Lemma take_infix {A} n (s : list A) : ∃ r, s = take n s ++ r.
Proof. exists (drop n s). by rewrite take_drop. Qed.

Lemma orNull_trim s :
  orNull (trim s) = None ∧ trim s = []
  ∨ orNull (trim s) = Some (trim s) ∧ trim s ≠ [].
Proof. destruct (trim s) eqn:E; [by left|by right]. Qed.

Lemma presentNonBlank_orNull s :
  presentNonBlank (orNull (trim s)) = bool_decide (trim s ≠ []).
Proof.
  destruct (trim s) as [|c t] eqn:E; [done|]. simpl.
  rewrite <-E, trim_idemp, E. done.
Qed.

Lemma filter_fmap_length {A B} (f : A → B) (P : B → Prop) `{∀ x, Decision (P x)}
    (l : list A) :
  length (filter P (f <$> l)) = length (filter (λ x, P (f x)) l).
Proof.
  induction l as [|x l IH]; [done|]. csimpl. rewrite !filter_cons.
  case_decide; simpl; by rewrite IH.
Qed.

(** ** Removing the tracking parameters *)

Lemma delete_loop (params : list (jsstring * jsstring)) (keys : list jsstring) :
  foldl URLSearchParams_delete params keys = filter (λ p, p.1 ∉ keys) params.
Proof.
  revert params. induction keys as [|k keys IH]; intros params; simpl.
  - symmetry. apply filter_all. apply Forall_forall. intros p _.
    apply not_elem_of_nil.
  - rewrite IH. unfold URLSearchParams_delete. rewrite list_filter_filter.
    apply list_filter_iff. intros p. rewrite not_elem_of_cons. tauto.
Qed.

Lemma hasSeparator_false s l c w r :
  hasSeparator s = false → s = l ++ c :: w :: r →
  isTerminator c = true → isWhiteSpace w = false.
Proof.
  intros Hs -> Hc. apply hasSeparator_app in Hs as [_ Hs]. simpl in Hs.
  rewrite Hc in Hs. simpl in Hs. by apply orb_false_iff in Hs as [? _].
Qed.

Lemma trimmed_sentence page q :
  q ∈ trim <$> split_sentences page →
  trim q = q ∧ hasSeparator q = false ∧ infix q page.
Proof.
  intros (p & -> & Hp)%list_elem_of_fmap.
  apply split_sentences_pieces in Hp as [Hsep Hinf].
  split; [apply trim_idemp|]. split.
  - eapply hasSeparator_infix; [apply trim_infix|done].
  - eapply infix_trans; [apply trim_infix|done].
Qed.

Lemma orNull_trimmed s t : orNull (trim s) = Some t → t ≠ [] ∧ trim t = t.
Proof.
  destruct (orNull_trim s) as [[-> _]|[-> Hne]]; [done|].
  intros [= <-]. split; [done|apply trim_idemp].
Qed.

Lemma trimmedOrNull_trimmed a t : trimmedOrNull a = Some t → t ≠ [] ∧ trim t = t.
Proof. destruct a as [s|]; [apply orNull_trimmed|done]. Qed.

Lemma presentNonBlank_trimmedOrNull a :
  presentNonBlank (trimmedOrNull a)
  = match a with Some s => bool_decide (trim s ≠ []) | None => false end.
Proof. destruct a as [s|]; [apply presentNonBlank_orNull|done]. Qed.

Lemma take_is_infix n (s : jsstring) : infix (take n s) s.
Proof. exists [], (drop n s). by rewrite take_drop. Qed.

Lemma filter_iff_elem {A} (P Q : A → Prop) `{∀ x, Decision (P x)}
    `{∀ x, Decision (Q x)} (l : list A) :
  Forall (λ x, P x ↔ Q x) l → filter P l = filter Q l.
Proof.
  induction 1 as [|x l Hx _ IH]; [done|].
  rewrite !filter_cons, IH. repeat case_decide; tauto.
Qed.

Lemma extractMetaAndContent_questions dom :
  Forall (λ q, infix q (ex_contentText (extractMetaAndContent dom)))
    (ex_pageQuestions (extractMetaAndContent dom)).
Proof.
  unfold extractMetaAndContent. cbn [ex_pageQuestions ex_contentText].
  rewrite extractQuestions_filter. apply Forall_forall. intros q.
  rewrite !list_elem_of_filter. intros (_ & _ & Hq).
  by apply trimmed_sentence in Hq as (_ & _ & Hinf).
Qed.

(** ** The URL model: scheme and host through the setters *)

Lemma parseHost_nonempty input h : Whatwg.parseHost input = Some h → h ≠ [].
Proof.
  unfold Whatwg.parseHost. case_bool_decide as Hne; simpl; [|done].
  destruct (_ && _); [|done]. intros [= <-].
  unfold lowerAscii. by destruct input.
Qed.

Lemma parse_host url u : Whatwg.parse url = Some u → Whatwg.host u ≠ [].
Proof.
  unfold Whatwg.parse.
  destruct (Whatwg.break _ (Whatwg.cleanInput url)) as [sch rest].
  destruct rest as [|c afterColon]; [done|].
  destruct (_ && _); [|done].
  destruct (Whatwg.break _ (Whatwg.skipWhile Whatwg.isSlash afterColon))
    as [authority rest].
  destruct (Whatwg.break _ rest) as [pathStr rest'].
  destruct (match rest' with [] => _ | _ => _ end) as [query fragment].
  destruct (Whatwg.parseHost authority) as [h|] eqn:Hh; [|done].
  destruct (_ && _); [|done]. intros [= <-]. simpl.
  by apply parseHost_nonempty in Hh.
Qed.

Lemma set_protocol_https u :
  Whatwg.scheme (Whatwg.set_protocol u (js "https:")) = js "https"
  ∧ Whatwg.host (Whatwg.set_protocol u (js "https:")) = Whatwg.host u.
Proof. by vm_compute. Qed.

Lemma set_hostname_cases u v :
  Whatwg.set_hostname u v = u
  ∨ ∃ h, h ≠ []
      ∧ Whatwg.set_hostname u v
        = {| Whatwg.scheme := Whatwg.scheme u; Whatwg.host := h;
             Whatwg.path := Whatwg.path u; Whatwg.query := Whatwg.query u;
             Whatwg.fragment := Whatwg.fragment u |}.
Proof.
  unfold Whatwg.set_hostname.
  destruct (Whatwg.break _ _) as [buffer rest].
  destruct (Whatwg.parseHost buffer) as [h|] eqn:Hh.
  - apply parseHost_nonempty in Hh.
    assert (∀ X, X = u
                 ∨ X = {| Whatwg.scheme := Whatwg.scheme u; Whatwg.host := h;
                          Whatwg.path := Whatwg.path u;
                          Whatwg.query := Whatwg.query u;
                          Whatwg.fragment := Whatwg.fragment u |} →
              X = u
              ∨ ∃ h, h ≠ []
                  ∧ X = {| Whatwg.scheme := Whatwg.scheme u; Whatwg.host := h;
                           Whatwg.path := Whatwg.path u;
                           Whatwg.query := Whatwg.query u;
                           Whatwg.fragment := Whatwg.fragment u |}) as Hc.
    { intros X [->| ->]; [by left|right; by exists h]. }
    apply Hc. destruct rest as [|[|p] rest]; [by right..|].
    do 6 (try (destruct p as [p|p|]; try (by left); try (by right))).
  - left. destruct rest as [|[|p] rest]; [done..|].
    do 6 (try (destruct p as [p|p|]; try done)).
Qed.

Lemma set_hostname_keeps u v :
  Whatwg.scheme (Whatwg.set_hostname u v) = Whatwg.scheme u
  ∧ (Whatwg.host u ≠ [] → Whatwg.host (Whatwg.set_hostname u v) ≠ []).
Proof.
  destruct (set_hostname_cases u v) as [->|(h & Hh & ->)]; [done|].
  split; [done|]. by intros _.
Qed.

Lemma toString_scheme u :
  Whatwg.host u ≠ [] →
  ∃ c rest, Whatwg.toString u = Whatwg.scheme u ++ js "://" ++ c :: rest.
Proof.
  intros Hh. unfold Whatwg.toString.
  destruct (Whatwg.host u) as [|c h]; [done|].
  by eexists c, _.
Qed.

(** ** Deduplication by positions *)

Lemma keepNew_positions (key : SearchQuestion → jsstring) pre qs :
  keepNew key (list_to_set (key <$> pre)) qs
  = (filter (λ p, key p.2 ∉ key <$> take p.1 (pre ++ qs))
       (imap (λ i q, ((length pre + i)%nat, q)) qs)).*2.
Proof.
  revert pre. induction qs as [|q r IH]; intros pre; [done|].
  assert (imap ((λ i q', ((length pre + i)%nat, q')) ∘ S) r
          = imap (λ i q', ((length (pre ++ [q]) + i)%nat, q')) r) as Hshift.
  { apply imap_ext. intros i x _. simpl. rewrite length_app. simpl.
    f_equal. lia. }
  assert (pre ++ q :: r = (pre ++ [q]) ++ r) as Hmid by by rewrite <-app_assoc.
  cbn [keepNew]. rewrite imap_cons, filter_cons. cbn [fst snd].
  rewrite Nat.add_0_r, take_app_length, Hshift, Hmid.
  destruct (decide (key q ∈ list_to_set (key <$> pre))) as [Hseen|Hnew].
  - rewrite decide_False.
    2:{ intros Hn. apply Hn. by apply elem_of_list_to_set in Hseen. }
    rewrite <-IH. f_equal. apply set_eq. intros k.
    rewrite !elem_of_list_to_set, fmap_app, elem_of_app.
    apply elem_of_list_to_set in Hseen. simpl. rewrite list_elem_of_singleton.
    split; [tauto|]. intros [?| ->]; done.
  - rewrite decide_True.
    2:{ intros Hn. apply Hnew. by apply elem_of_list_to_set. }
    csimpl. f_equal. rewrite <-IH. f_equal. apply set_eq. intros k.
    rewrite elem_of_union, elem_of_singleton, !elem_of_list_to_set, fmap_app,
      elem_of_app.
    simpl. rewrite list_elem_of_singleton. tauto.
Qed.

Lemma dedupeQuestions_positions toLowerCase questions :
  dedupeQuestions toLowerCase questions
  = firstOccurrences (λ q, normalizedText toLowerCase (text q)) questions.
Proof.
  rewrite dedupeQuestions_keepNew.
  apply (keepNew_positions (λ q, normalizedText toLowerCase (text q)) [] questions).
Qed.

Lemma fetchSearchQuestions_filter toLowerCase seedKeywords maxPerKeyword :
  fetchSearchQuestions toLowerCase seedKeywords maxPerKeyword
  = filter (λ q, (5 < length (text q))%nat)
      (dedupeQuestions toLowerCase
         (take 5 (Array_sort (λ a b, Qsign (score b - score a)) seedKeywords)
            ≫= λ keyword, fetchFromTavily (value keyword) google)).
Proof.
  unfold fetchSearchQuestions. case_decide as Hlen; [|done].
  apply nil_length_inv in Hlen. by subst seedKeywords.
Qed.

(** ** The embedding on small inputs *)

Example utf16_hangul : js "가힣 aZ" = [0xAC00; 0xD7A3; 0x20; 0x61; 0x5A].
Proof. reflexivity. Qed.

Example utf16_surrogates : js "😀" = [0xD83D; 0xDE00].
Proof. reflexivity. Qed.

Example split_ws_edges : split_ws (js " a  b ") = [[]; js "a"; js "b"; []].
Proof. reflexivity. Qed.

Example split_ws_empty : split_ws [] = [[]].
Proof. reflexivity. Qed.

Example replace_runs_spaces :
  replace_runs isWhiteSpace (js " a   b ") = js " a b ".
Proof. reflexivity. Qed.

Example trim_both : trim (js "  a  b ") = js "a  b".
Proof. reflexivity. Qed.

Example join_sp_three : join_sp [js "a"; js "b"; js "c"] = js "a b c".
Proof. reflexivity. Qed.

Example encodeURIComponent_utf8 :
  Uri.encodeURIComponent (js "a b/타~") = Some (js "a%20b%2F%ED%83%80~").
Proof. reflexivity. Qed.

Example encodeURIComponent_lone_surrogate :
  Uri.encodeURIComponent [0x61; 0xD83D] = None.
Proof. reflexivity. Qed.

Example fetchFromTavily_unpaired : fetchFromTavily [0xDC00] google = [].
Proof. reflexivity. Qed.

Example tokenize_mixed :
  tokenize lowerAscii (js "Tire Guide: the TIRE 타이어 123 a b2 what")
  = [js "tire"; js "guide"; js "tire"; js "타이어"; js "b2"].
Proof. by vm_compute. Qed.

Example countTokens_order :
  countTokens [js "tire"; js "guide"; js "tire"; js "guide"; js "guide"]
  = [(js "tire", 2%Z); (js "guide", 3%Z)].
Proof. by vm_compute. Qed.

(** "tire" and "guide" both occur twice; "tire" was seen first. *)
Example extractSeedKeywords_tie :
  extractSeedKeywords lowerAscii
    {| title := Some (js "Tire guide"); description := None; keywords := None;
       ogTitle := Some []; ogDescription := None; canonical := None |}
    [js "Guide to 타이어"; js "타이어"] (js "tire 타이어")
  = [ {| value := js "타이어"; score := 3 # 3 |};
      {| value := js "tire"; score := 2 # 3 |};
      {| value := js "guide"; score := 2 # 3 |};
      {| value := js "to"; score := 1 # 3 |} ].
Proof. by vm_compute. Qed.

Example extractSeedKeywords_blank :
  extractSeedKeywords lowerAscii
    {| title := Some (js "  "); description := None; keywords := None;
       ogTitle := None; ogDescription := None; canonical := None |}
    [] []
  = [].
Proof. by vm_compute. Qed.

(** Title, description, two headings and three page questions: all four
    conditions hold. *)
Example calculateStructureScore_all :
  calculateStructureScore
    {| title := Some (js "T"); description := Some (js "D"); keywords := None;
       ogTitle := None; ogDescription := None; canonical := None |}
    [js "H1"; js "H2"] [js "q1?"; js "q2?"; js "q3?"]
  = 80%Z.
Proof. by vm_compute. Qed.

Example calculateStructureScore_blank_title :
  calculateStructureScore
    {| title := Some (js "  "); description := None; keywords := None;
       ogTitle := None; ogDescription := None; canonical := None |}
    [js "H1"; js "H2"] [js "q1?"; js "q2?"]
  = 50%Z.
Proof. by vm_compute. Qed.

Example calculateQuestionCoverage_third :
  calculateQuestionCoverage lowerAscii [js "타이어 비용은 얼마인가요"]
    (fetchSearchQuestions lowerAscii
       [ {| value := js "타이어"; score := 1 |};
         {| value := js "tire"; score := 1 # 2 |} ] 5)
  = (2 # 6)%Q.
Proof. by vm_compute. Qed.

Example Math_round_half_up :
  Math_round (5 # 2) = 3%Z ∧ Math_round (- (5 # 2)) = (-2)%Z
  ∧ Math_round (49 # 100) = 0%Z.
Proof. by vm_compute. Qed.

Example Math_round_binary64 :
  F64.Math_round (PrimFloat.div (F64.ofZ 5) (F64.ofZ 2)) = Some 3%Z
  ∧ F64.Math_round (PrimFloat.opp (PrimFloat.div (F64.ofZ 5) (F64.ofZ 2)))
    = Some (-2)%Z
  ∧ F64.Math_round (PrimFloat.div (F64.ofZ 1) (F64.ofZ 0)) = None.
Proof. by vm_compute. Qed.

(** Outside the ratios of a run the two evaluations can differ: for a
    structure score of 40 and 19 covered questions out of 24 the exact
    value is 63.5, which binary64 arithmetic misses from below. *)
Example binary64_differs :
  finalScore (composeScores 40 (19 # 24)) = 64%Z
  ∧ F64.finalScore 40 (F64.questionCoverage 19 24) = Some 63%Z.
Proof. by vm_compute. Qed.

(** A question that comes back after another one is dropped at its
    second position; the first two keep their order. *)
Example dedupeQuestions_repeated :
  dedupeQuestions lowerAscii
    [question (js "What is X?"); question (js "Why is it so?");
     question (js "What is X?")]
  = [question (js "What is X?"); question (js "Why is it so?")].
Proof. by vm_compute. Qed.

(** * The claims *)

(** C4: for every meta record, list of headings and body text,
    [extractSeedKeywords] returns at most 10 seed keywords, every score
    lies in [0,1], the scores are non-increasing along the returned
    sequence, and when the sequence is not empty its first score is 1. *)
Theorem extractSeedKeywords_scores (toLowerCase : jsstring → jsstring)
    (meta : AnalysisMeta) (headings : list jsstring) (contentText : jsstring) :
  let kws := extractSeedKeywords toLowerCase meta headings contentText in
  (length kws ≤ 10)%nat
  ∧ Forall (λ kw, (0 <= score kw)%Q ∧ (score kw <= 1)%Q) kws
  ∧ StronglySorted (λ a b, (score b <= score a)%Q) kws
  ∧ (∀ kw, head kws = Some kw → (score kw == 1)%Q).
Proof.
  intros kws. subst kws.
  destruct (extractSeedKeywords_cases toLowerCase meta headings contentText)
    as [[-> _]|[-> _]].
  - split; [simpl; lia|]. split; [constructor|]. split; [constructor|].
    intros kw [=].
  - split; [apply rankEntries_length|apply rankEntries_scores].
Qed.

(** C5: the sequence returned by [extractSeedKeywords] is ordered by
    descending raw frequency of the tokens of the assembled text, and
    tokens of equal frequency appear in the order of their first
    occurrence among those tokens.  Every keyword is such a token, its
    score is its frequency over one common divisor, and a token that is
    left out ranks after the ten that are returned. *)
Theorem extractSeedKeywords_order (toLowerCase : jsstring → jsstring)
    (meta : AnalysisMeta) (headings : list jsstring) (contentText : jsstring) :
  let rawText := join_sp (textParts meta headings contentText) in
  let tokens := tokenize toLowerCase rawText in
  let kws := extractSeedKeywords toLowerCase meta headings contentText in
  (∀ i j a b, (i < j)%nat → kws !! i = Some a → kws !! j = Some b →
     precedes tokens (value a) (value b))
  ∧ (∀ kw, kw ∈ kws → value kw ∈ tokens)
  ∧ (∃ m, (1 ≤ m)%Z ∧ ∀ kw, kw ∈ kws →
       score kw = (inject_Z (occurrences tokens (value kw)) / inject_Z m)%Q)
  ∧ (trim rawText ≠ [] → ∀ t, t ∈ tokens → t ∉ value <$> kws →
       length kws = 10%nat ∧ ∀ kw, kw ∈ kws → precedes tokens (value kw) t).
Proof.
  intros rawText tokens kws. subst kws.
  pose proof (extractSeedKeywords_cases toLowerCase meta headings contentText) as H.
  cbv zeta in H. fold rawText in H. fold tokens in H.
  clearbody tokens. clearbody rawText.
  destruct H as [[-> Hempty]|[-> Hraw]].
  - split; [intros i j a b _ [=]|].
    split; [intros kw []%elem_of_nil|].
    split; [exists 1%Z; split; [lia|intros kw []%elem_of_nil]|].
    intros Hraw t Ht _. destruct Hempty as [Hb|Hn]; [done|].
    rewrite Hn in Ht. by apply elem_of_nil in Ht.
  - split.
    { intros i j a b Hij Ha Hb.
      by eapply (StronglySorted_lookup _ _ i j a b (rankEntries_precedes tokens)). }
    split; [intros kw Hkw; by apply rankEntries_tokens|].
    split.
    + destruct (rankEntries (tally tokens)) as [|kw0 rest] eqn:E.
      { exists 1%Z. split; [lia|intros kw []%elem_of_nil]. }
      destruct (rankEntries_tokens tokens kw0) as (_ & m & Hm & _ & Hall).
      { rewrite E. left. }
      exists m. split; [done|]. intros kw Hkw. apply Hall. by rewrite E.
    + intros _ t Ht Hout. by apply rankEntries_top.
Qed.

(** C6: in keyword extraction the text is lowercased, every maximal run
    of code units that are not ASCII digits, ASCII letters or Hangul
    syllables becomes a single space, and after splitting on whitespace
    the tokens that survive are the maximal runs of class code units
    except exactly those of length 1, those made of digits only, those of
    length 30 or more, and the stop words of the glossary. *)
Theorem tokenize_spec (toLowerCase : jsstring → jsstring) (rawText : jsstring) :
  let outside := λ c, negb (isKeywordChar c) in
  tokenize toLowerCase rawText
  = filter (λ t, length t ≠ 1%nat ∧ allDigits t = false ∧ (length t < 30)%nat
                 ∧ t ∉ glossaryStopWords)
      (maximalRuns isKeywordChar (toLowerCase rawText))
  ∧ (∀ c, outside c = false ↔ keywordClass c)
  ∧ (∀ t, allDigits t = true ↔ t ≠ [] ∧ Forall (λ c, 0x30 ≤ c ≤ 0x39) t)
  ∧ (∀ k s, Forall (λ c, outside c = false) k →
       replace_runs outside (k ++ s) = k ++ replace_runs outside s)
  ∧ (∀ r s, r ≠ [] → Forall (λ c, outside c = true) r →
       (∀ c, head s = Some c → outside c = false) →
       replace_runs outside (r ++ s) = SP :: replace_runs outside s).
Proof.
  intros outside. split; [|split; [|split; [|split]]].
  - unfold tokenize.
    rewrite (replace_runs_tokens _ isKeywordChar_not_white).
    rewrite !list_filter_filter. apply list_filter_iff. intros t.
    rewrite keepToken_spec, STOP_WORDS_glossary. tauto.
  - intros c. unfold outside. rewrite negb_false_iff. apply isKeywordChar_spec.
  - apply allDigits_spec.
  - apply replace_runs_keep.
  - apply replace_runs_run.
Qed.

(** C3: the structure score is 40 plus 10 for each of four independent
    conditions (title present and not blank, description present and not
    blank, at least 2 headings, at least 3 page questions), clamped to
    [0,100]; it therefore lies in [40,100] (indeed in [40,80]) for all 16
    combinations of the conditions. *)
Theorem calculateStructureScore_spec (meta : AnalysisMeta)
    (headings pageQuestions : list jsstring) :
  let bonus (c : bool) := (if c then 10 else 0)%Z in
  let sum := (40 + bonus (presentNonBlank (title meta))
                 + bonus (presentNonBlank (description meta))
                 + bonus (bool_decide (2 ≤ length headings)%nat)
                 + bonus (bool_decide (3 ≤ length pageQuestions)%nat))%Z in
  calculateStructureScore meta headings pageQuestions = Z.min 100 (Z.max 0 sum)
  ∧ calculateStructureScore meta headings pageQuestions = sum
  ∧ (40 ≤ calculateStructureScore meta headings pageQuestions ≤ 100)%Z
  ∧ (∀ o, presentNonBlank o = true ↔ ∃ s, o = Some s ∧ trim s ≠ []).
Proof.
  intros bonus sum. subst bonus sum. unfold calculateStructureScore.
  split_and!; [..|apply presentNonBlank_spec];
    destruct (presentNonBlank (title meta)),
             (presentNonBlank (description meta));
    repeat case_bool_decide; repeat case_decide; try lia.
Qed.

(** C2: the coverage scorer returns 0 when there is no search question
    and when there is no page question.  Otherwise a text is tokenized
    by lowercasing, splitting on whitespace and keeping the tokens of
    length 2 or more; a search question is covered exactly when one of
    its tokens is a token of some page question (the page questions are
    scanned in order and the scan stops at the first match); and the
    ratio is the
    number of covered search questions over the number of search
    questions, a value in [0,1]. *)
Theorem calculateQuestionCoverage_spec (toLowerCase : jsstring → jsstring)
    (pageQuestions : list jsstring) (searchQuestions : list SearchQuestion) :
  let tokens := coverageTokens toLowerCase in
  let covers sq := isCovered toLowerCase (tokens (text sq)) pageQuestions in
  let ratio := calculateQuestionCoverage toLowerCase pageQuestions searchQuestions in
  (searchQuestions = [] → ratio = 0%Q)
  ∧ (pageQuestions = [] → (ratio == 0)%Q)
  ∧ (∀ s, tokens s
          = filter (λ t, (2 ≤ length t)%nat) (maximalRuns nonWhite (toLowerCase s)))
  ∧ (∀ sq, covers sq = true
           ↔ ∃ pageQ token, pageQ ∈ pageQuestions ∧ token ∈ tokens (text sq)
                            ∧ token ∈ tokens pageQ)
  ∧ (∀ searchTokens pageQ rest,
       isCovered toLowerCase searchTokens (pageQ :: rest)
       = if decide (Exists (λ token, token ∈ tokens pageQ) searchTokens)
         then true else isCovered toLowerCase searchTokens rest)
  ∧ (searchQuestions ≠ [] →
       ratio = (inject_Z (Z.of_nat (length (filter (λ sq, covers sq = true)
                                              searchQuestions)))
                / inject_Z (Z.of_nat (length searchQuestions)))%Q)
  ∧ (0 <= ratio)%Q ∧ (ratio <= 1)%Q.
Proof.
  intros tokens covers ratio. subst tokens covers ratio.
  unfold calculateQuestionCoverage.
  pose proof (coveredCount_bounds toLowerCase pageQuestions searchQuestions) as Hb.
  split_and!.
  - by intros ->.
  - intros ->. case_decide; [done|].
    rewrite coveredCount_no_pages. unfold Qdiv. by rewrite Qmult_0_l.
  - apply coverageTokens_runs.
  - intros sq. apply isCovered_spec.
  - apply isCovered_cons.
  - intros Hne. rewrite decide_False by (by destruct searchQuestions).
    by rewrite coveredCount_filter.
  - apply (calculateQuestionCoverage_bounds toLowerCase pageQuestions searchQuestions).
  - apply (calculateQuestionCoverage_bounds toLowerCase pageQuestions searchQuestions).
Qed.

(** C7: deduplication uses as key a question's text lowercased, with
    whitespace runs collapsed to one space, and trimmed; it keeps exactly
    the first occurrence of every key, in the original relative order:
    its result is the list of the questions at the positions whose key
    does not occur at an earlier position, by increasing position.
    [fetchSearchQuestions] afterwards drops the questions whose raw text
    has length 5 or less from the deduplicated list of the questions it
    collected, so the sequence it returns has no two entries with the
    same key. *)
Theorem dedupeQuestions_spec (toLowerCase : jsstring → jsstring) :
  let key q := trim (replace_runs isWhiteSpace (toLowerCase (text q))) in
  (∀ questions,
     let deduped := dedupeQuestions toLowerCase questions in
     deduped
     = (filter (λ p, key p.2 ∉ key <$> take p.1 questions) (imap pair questions)).*2
     ∧ deduped = firstOccurrences key questions
     ∧ deduped `sublist_of` questions
     ∧ NoDup (key <$> deduped)
     ∧ ∀ q, q ∈ deduped
            ↔ ∃ i, questions !! i = Some q
                   ∧ ∀ j qj, (j < i)%nat → questions !! j = Some qj → key qj ≠ key q)
  ∧ (∀ seedKeywords maxPerKeyword,
       let allQuestions :=
         take 5 (Array_sort (λ a b, Qsign (score b - score a)) seedKeywords)
           ≫= λ keyword, fetchFromTavily (value keyword) google in
       let result := fetchSearchQuestions toLowerCase seedKeywords maxPerKeyword in
       result
       = filter (λ q, (5 < length (text q))%nat) (firstOccurrences key allQuestions)
       ∧ (∀ q, q ∈ result
               ↔ (5 < length (text q))%nat
                 ∧ ∃ i, allQuestions !! i = Some q
                        ∧ ∀ j qj, (j < i)%nat → allQuestions !! j = Some qj →
                                  key qj ≠ key q)
       ∧ NoDup (key <$> result)).
Proof.
  intros key.
  assert (∀ questions q,
            q ∈ dedupeQuestions toLowerCase questions
            ↔ ∃ i, questions !! i = Some q
                   ∧ ∀ j qj, (j < i)%nat → questions !! j = Some qj → key qj ≠ key q)
    as Hfirst.
  { intros questions q. rewrite dedupeQuestions_keepNew, keepNew_first. split.
    - intros (i & Hi & _ & Hj). by exists i.
    - intros (i & Hi & Hj). exists i. split; [done|]. split; [|done].
      apply not_elem_of_empty. }
  split.
  - intros questions deduped. subst deduped.
    split; [apply dedupeQuestions_positions|].
    split; [apply dedupeQuestions_positions|].
    rewrite dedupeQuestions_keepNew. split; [apply keepNew_sublist|].
    split; [apply keepNew_NoDup|].
    intros q. rewrite <-dedupeQuestions_keepNew. apply Hfirst.
  - intros seedKeywords maxPerKeyword allQuestions result. subst result.
    rewrite fetchSearchQuestions_filter. fold allQuestions.
    split; [by rewrite dedupeQuestions_positions|]. split.
    + intros q. rewrite list_elem_of_filter, Hfirst. done.
    + assert (NoDup (key <$> dedupeQuestions toLowerCase allQuestions)) as Hnd.
      { rewrite dedupeQuestions_keepNew. apply keepNew_NoDup. }
      eapply sublist_NoDup; [exact Hnd|]. apply fmap_sublist, sublist_filter.
Qed.

(** C1: for the structure score [s] and the coverage ratio [r] of any
    run, the final score is [round (s * 0.4 + (r * 100) * 0.6)], the
    nearest integer with a tie rounded up.  Binary64 arithmetic, which
    [runAnalysis] uses, yields that same integer on every run.  For a
    structure score of 70 and a coverage of 50 percent the final score
    is 58. *)
Theorem finalScore_composed (toLowerCase : jsstring → jsstring)
    (meta : AnalysisMeta) (headings : list jsstring) (contentText : jsstring)
    (pageQuestions : list jsstring) :
  let searchQuestions := runSearchQuestions toLowerCase meta headings contentText in
  let s := calculateStructureScore meta headings pageQuestions in
  let r := calculateQuestionCoverage toLowerCase pageQuestions searchQuestions in
  let x := (inject_Z s * 0.4 + (r * 100) * 0.6)%Q in
  let scores := runScores toLowerCase meta headings contentText pageQuestions in
  structureScore scores = s
  ∧ questionCoverage scores = (r * 100)%Q
  ∧ (0 <= x)%Q
  ∧ finalScore scores = Qfloor (x + (1 # 2))%Q
  ∧ (x - (1 # 2) < inject_Z (finalScore scores))%Q
  ∧ (inject_Z (finalScore scores) <= x + (1 # 2))%Q
  ∧ runFinalScore64 toLowerCase meta headings contentText pageQuestions
    = Some (finalScore scores)
  ∧ finalScore (composeScores 70 (50 / 100)) = 58%Z
  ∧ F64.finalScore 70 (F64.questionCoverage 50 100) = Some 58%Z.
Proof.
  intros searchQuestions s r x scores.
  split; [done|]. split; [done|].
  split.
  { assert (40 ≤ s)%Z as Hs.
    { pose proof (calculateStructureScore_values meta headings pageQuestions) as Hs.
      fold s in Hs.
      repeat (apply elem_of_cons in Hs as [->|Hs]; [lia|]).
      by apply elem_of_nil in Hs. }
    pose proof (calculateQuestionCoverage_bounds toLowerCase pageQuestions
      searchQuestions) as [Hr _]. fold r in Hr.
    subst x. rewrite Zle_Qle in Hs. change (inject_Z 40) with 40%Q in Hs. lra. }
  split; [done|].
  split; [apply Math_round_nearest|]. split; [apply Math_round_nearest|].
  split; [|split; [done|by vm_compute]].
  subst scores. unfold runFinalScore64, runScores.
  fold searchQuestions. fold s.
  pose proof (calculateStructureScore_values meta headings pageQuestions) as Hs.
  fold s in Hs.
  pose proof (fetchSearchQuestions_length toLowerCase
    (extractSeedKeywords toLowerCase meta headings contentText) 5) as Ht.
  fold (runSearchQuestions toLowerCase meta headings contentText) in Ht.
  fold searchQuestions in Ht.
  pose proof (coveredCount_bounds toLowerCase pageQuestions searchQuestions) as Hc.
  pose proof composition_table as Htab.
  rewrite Forall_forall in Htab. specialize (Htab s Hs).
  rewrite Forall_forall in Htab.
  specialize (Htab (Z.of_nat (length searchQuestions))).
  rewrite Forall_forall in Htab.
  rewrite Htab.
  - unfold calculateQuestionCoverage.
    destruct (decide (length searchQuestions = 0%nat)) as [H0|H0].
    + rewrite decide_True by lia. done.
    + rewrite decide_False by lia. done.
  - apply elem_of_seqZ. lia.
  - apply elem_of_seqZ. lia.
Qed.

(** C10: [fetchSearchQuestions] returns the same result for every value
    of [maxPerKeyword] as for the default 5: the parameter is never read
    and no cap per keyword is applied.  All the questions of the provider
    for the five best keywords go to the deduplication and the length
    filter; with [maxPerKeyword = 1] a single keyword still yields its
    three questions. *)
Theorem fetchSearchQuestions_maxPerKeyword (toLowerCase : jsstring → jsstring)
    (seedKeywords : list SeedKeyword) (maxPerKeyword : Z) :
  fetchSearchQuestions toLowerCase seedKeywords maxPerKeyword
  = fetchSearchQuestions toLowerCase seedKeywords 5
  ∧ (seedKeywords ≠ [] →
       fetchSearchQuestions toLowerCase seedKeywords maxPerKeyword
       = filter (λ q, (5 < length (text q))%nat)
           (dedupeQuestions toLowerCase
              (take 5 (Array_sort (λ a b, Qsign (score b - score a)) seedKeywords)
                 ≫= λ keyword, fetchFromTavily (value keyword) google)))
  ∧ fetchSearchQuestions lowerAscii [ {| value := js "tire"; score := 1 |} ] 1
    = [ {| source := google; text := js "tire는 얼마나 자주 교체해야 하나요?";
           url := Some (js "https://example.com/search?q=tire") |};
        {| source := google; text := js "tire 비용은 어느 정도인가요?";
           url := Some (js "https://example.com/search?q=tire") |};
        {| source := google; text := js "tire를 선택할 때 고려해야 할 점은 무엇인가요?";
           url := Some (js "https://example.com/search?q=tire") |} ].
Proof.
  split; [done|]. split; [|by vm_compute].
  intros Hne. unfold fetchSearchQuestions.
  rewrite decide_False; [done|]. by destruct seedKeywords.
Qed.

(** C8, as the code has it: for the questions "What is X?" and
    "what   is x?" (in that order) deduplication returns exactly the
    first.  With the second text written "what   is x ?" the keys are
    "what is x?" and "what is x ?": collapsing whitespace keeps the
    space before the question mark, and both questions are returned.
    Two questions are merged exactly when their keys are equal. *)
Theorem dedupeQuestions_what_is_x (toLowerCase : jsstring → jsstring)
    (Hascii : ascii_exact toLowerCase) :
  dedupeQuestions toLowerCase
    [question (js "What is X?"); question (js "what   is x?")]
  = [question (js "What is X?")]
  ∧ normalizedText toLowerCase (js "What is X?") = js "what is x?"
  ∧ normalizedText toLowerCase (js "what   is x ?") = js "what is x ?"
  ∧ dedupeQuestions toLowerCase
      [question (js "What is X?"); question (js "what   is x ?")]
    = [question (js "What is X?"); question (js "what   is x ?")]
  ∧ (∀ q1 q2,
       dedupeQuestions toLowerCase [q1; q2]
       = if decide (normalizedText toLowerCase (text q1)
                    = normalizedText toLowerCase (text q2))
         then [q1] else [q1; q2]).
Proof.
  assert (∀ s, Forall (λ c, c < 128) s →
               normalizedText toLowerCase s = normalizedText lowerAscii s) as Hn.
  { intros s Hs. unfold normalizedText. by rewrite Hascii. }
  assert (∀ t, bool_decide (Forall (λ c, c < 128) t) = true →
               Forall (λ c, c < 128) t) as Hd.
  { intros t. apply bool_decide_eq_true_1. }
  split_and!.
  - rewrite dedupeQuestions_ascii; [by vm_compute|done|].
    repeat constructor; by apply Hd.
  - rewrite Hn; [by vm_compute|by apply Hd].
  - rewrite Hn; [by vm_compute|by apply Hd].
  - rewrite dedupeQuestions_ascii; [by vm_compute|done|].
    repeat constructor; by apply Hd.
  - intros q1 q2. rewrite dedupeQuestions_keepNew. cbn [keepNew].
    rewrite decide_False by apply not_elem_of_empty.
    destruct (decide (normalizedText toLowerCase (text q1)
                      = normalizedText toLowerCase (text q2))) as [Hk|Hk].
    + rewrite decide_True; [done|].
      apply elem_of_union_l, elem_of_singleton. symmetry. exact Hk.
    + rewrite decide_False; [done|].
      intros [H%elem_of_singleton|H%elem_of_empty]%elem_of_union; [|done].
      apply Hk. symmetry. exact H.
Qed.

Lemma dedupeQuestions_what_is_x_witness :
  ascii_exact lowerAscii
  ∧ dedupeQuestions lowerAscii
      [question (js "What is X?"); question (js "what   is x?")]
    = [question (js "What is X?")].
Proof.
  split.
  - intros s _. reflexivity.
  - apply (dedupeQuestions_what_is_x lowerAscii). intros s _. reflexivity.
Defined.

(** The input of C8 in the code: both questions come back, not the
    first alone. *)
Lemma dedupeQuestions_keeps_both :
  dedupeQuestions lowerAscii
    [question (js "What is X?"); question (js "what   is x ?")]
  = [question (js "What is X?"); question (js "what   is x ?")]
  ∧ dedupeQuestions lowerAscii
      [question (js "What is X?"); question (js "what   is x ?")]
    ≠ [question (js "What is X?")].
Proof. split; by vm_compute. Qed.



(** * Further properties of the code *)

(** X1: every seed keyword is a token of the page: its value has
    between 2 and 29 code units, all of them ASCII digits, ASCII letters
    or Hangul syllables, is not made of digits only and is not a stop
    word; no value occurs twice, and every score is positive. *)
Theorem extractSeedKeywords_values (toLowerCase : jsstring → jsstring)
    (meta : AnalysisMeta) (headings : list jsstring) (contentText : jsstring) :
  let kws := extractSeedKeywords toLowerCase meta headings contentText in
  NoDup (value <$> kws)
  ∧ Forall (λ kw,
      (2 ≤ length (value kw) ≤ 29)%nat
      ∧ Forall keywordClass (value kw)
      ∧ ¬ Forall (λ c, 0x30 ≤ c ≤ 0x39) (value kw)
      ∧ (value kw ∉ STOP_WORDS)
      ∧ (0 < score kw)%Q) kws.
Proof.
  intros kws. subst kws.
  pose proof (extractSeedKeywords_cases toLowerCase meta headings contentText) as H.
  cbv zeta in H. set (tokens := tokenize _ _) in H.
  destruct H as [[-> _]|[-> _]]; [split; constructor|].
  split; [apply rankEntries_NoDup|].
  apply Forall_forall. intros kw Hkw.
  destruct (rankEntries_tokens tokens kw Hkw) as (Hin & m & Hm & Hscore & _).
  pose proof (occurrences_pos _ _ Hin) as Hocc.
  unfold tokens in Hin. apply tokenize_elem in Hin as (Hrun & Hkeep & Hstop).
  apply maximalRuns_pieces in Hrun as [Hne Hk].
  apply keepToken_spec in Hkeep as (H1 & Hdig & H30).
  split_and!.
  - destruct (value kw) as [|? [|? ?]]; simpl in *; try done; lia.
  - lia.
  - eapply Forall_impl; [exact Hk|]. intros c. apply isKeywordChar_spec.
  - intros Hd. assert (allDigits (value kw) = true); [|congruence].
    by apply allDigits_spec.
  - done.
  - rewrite Hscore. apply ratio_pos; lia.
Qed.

(** X2: the keywords depend only on the title, the Open Graph title, the
    description, the Open Graph description, the headings and the first
    800 code units of the body text: the [keywords] and [canonical]
    fields and the rest of the body are never read. *)
Theorem extractSeedKeywords_reads (toLowerCase : jsstring → jsstring)
    (meta : AnalysisMeta) (headings : list jsstring) (contentText : jsstring)
    (otherKeywords otherCanonical : option jsstring) :
  extractSeedKeywords toLowerCase
    {| title := title meta; description := description meta;
       keywords := otherKeywords; ogTitle := ogTitle meta;
       ogDescription := ogDescription meta; canonical := otherCanonical |}
    headings (take 800 contentText)
  = extractSeedKeywords toLowerCase meta headings contentText.
Proof.
  unfold extractSeedKeywords, textParts. simpl.
  rewrite take_idemp. by destruct contentText.
Qed.

(** X3: no keyword is returned exactly when the assembled text is blank
    or has no token; otherwise the number of keywords is the number of
    distinct tokens, capped at 10. *)
Theorem extractSeedKeywords_count (toLowerCase : jsstring → jsstring)
    (meta : AnalysisMeta) (headings : list jsstring) (contentText : jsstring) :
  let rawText := join_sp (textParts meta headings contentText) in
  let tokens := tokenize toLowerCase rawText in
  let kws := extractSeedKeywords toLowerCase meta headings contentText in
  (kws = [] ↔ trim rawText = [] ∨ tokens = [])
  ∧ (trim rawText ≠ [] →
       length kws = (10 `min` length (firstSeen tokens))%nat).
Proof.
  intros rawText tokens kws. subst kws.
  pose proof (extractSeedKeywords_cases toLowerCase meta headings contentText) as H.
  cbv zeta in H. fold rawText in H. fold tokens in H.
  destruct H as [[-> Hempty]|[-> Hraw]].
  - split; [done|]. intros Hraw. destruct Hempty as [? | ->]; [done|]. done.
  - split; [|intros _; apply rankEntries_count].
    pose proof (rankEntries_count tokens) as Hlen.
    split.
    + intros Hnil. rewrite Hnil in Hlen. simpl in Hlen. right.
      destruct tokens as [|t ts]; [done|]. simpl in Hlen. lia.
    + intros [? | ->]; [done|]. done.
Qed.

(** X4: after the counting loop the frequency map holds every distinct
    token once, in the order of first occurrence, with the number of its
    occurrences; a string that is no token has no entry; the counts are
    at least 1 and add up to the number of tokens. *)
Theorem countTokens_frequencies (tokens : list jsstring) :
  let frequencyMap := countTokens tokens in
  (∀ k, JsMap.get frequencyMap k
        = if decide (k ∈ tokens) then Some (occurrences tokens k) else None)
  ∧ frequencyMap.*1 = firstSeen tokens
  ∧ NoDup frequencyMap.*1
  ∧ Forall (λ e, (1 ≤ e.2)%Z) frequencyMap
  ∧ totalCount frequencyMap = Z.of_nat (length tokens).
Proof.
  intros frequencyMap. subst frequencyMap. split_and!.
  - intros k. rewrite countTokens_tally. unfold tally.
    rewrite JsMap_get_keyed.
    destruct (decide (k ∈ firstSeen tokens)) as [Hk|Hk];
      rewrite firstSeen_elem in Hk.
    + by rewrite decide_True.
    + by rewrite decide_False.
  - rewrite countTokens_tally. unfold tally.
    rewrite <-list_fmap_compose. apply list_fmap_id.
  - rewrite countTokens_tally. unfold tally.
    rewrite <-list_fmap_compose, list_fmap_id. apply firstSeen_NoDup.
  - rewrite countTokens_tally. apply Forall_forall.
    intros e He. by apply tally_entry in He as (_ & _ & ?).
  - apply countTokens_total.
Qed.

(** X5: tokenizing is idempotent: when lowercasing leaves the
    space-joined tokens of a text as they are, tokenizing that joined
    string gives the same tokens. *)
Theorem tokenize_idempotent (toLowerCase : jsstring → jsstring)
    (rawText : jsstring)
    (Hlower : toLowerCase (join_sp (tokenize toLowerCase rawText))
              = join_sp (tokenize toLowerCase rawText)) :
  tokenize toLowerCase (join_sp (tokenize toLowerCase rawText))
  = tokenize toLowerCase rawText.
Proof.
  set (tokens := tokenize toLowerCase rawText) in *.
  assert (Forall (λ t, (t ≠ [] ∧ Forall (λ c, isKeywordChar c = true) t)
                       ∧ keepToken t ∧ t ∉ STOP_WORDS) tokens) as Htok.
  { apply Forall_forall. intros t (Hrun & ? & ?)%tokenize_elem.
    by apply maximalRuns_pieces in Hrun. }
  unfold tokenize at 1. rewrite Hlower.
  rewrite (replace_runs_tokens _ isKeywordChar_not_white).
  rewrite maximalRuns_join; [| done |].
  - rewrite (filter_all (λ t, keepToken t)).
    + apply filter_all. eapply Forall_impl; [exact Htok|].
      by intros t (_ & _ & ?).
    + eapply Forall_impl; [exact Htok|]. by intros t (_ & ? & _).
  - eapply Forall_impl; [exact Htok|]. by intros t (? & _ & _).
Qed.

Lemma tokenize_idempotent_witness :
  lowerAscii (join_sp (tokenize lowerAscii (js "Tire Guide: the TIRE 타이어 b2")))
  = join_sp (tokenize lowerAscii (js "Tire Guide: the TIRE 타이어 b2"))
  ∧ tokenize lowerAscii
      (join_sp (tokenize lowerAscii (js "Tire Guide: the TIRE 타이어 b2")))
    = tokenize lowerAscii (js "Tire Guide: the TIRE 타이어 b2").
Proof.
  split.
  - vm_compute. reflexivity.
  - apply (tokenize_idempotent lowerAscii). vm_compute. reflexivity.
Defined.

(** X6: deduplication is idempotent; it returns its input unchanged
    exactly when the keys of the input are pairwise distinct, never
    returns more questions than it was given, and returns none only for
    the empty input. *)
Theorem dedupeQuestions_idempotent (toLowerCase : jsstring → jsstring)
    (questions : list SearchQuestion) :
  let key q := normalizedText toLowerCase (text q) in
  let deduped := dedupeQuestions toLowerCase questions in
  dedupeQuestions toLowerCase deduped = deduped
  ∧ (deduped = questions ↔ NoDup (key <$> questions))
  ∧ (length deduped ≤ length questions)%nat
  ∧ (deduped = [] ↔ questions = []).
Proof.
  intros key deduped. subst deduped. rewrite !dedupeQuestions_keepNew.
  fold key.
  assert (∀ qs : list SearchQuestion, Forall (λ q, key q ∉ (∅ : gset jsstring)) qs)
    as Hfresh.
  { intros qs. apply Forall_forall. intros q _. apply not_elem_of_empty. }
  split_and!.
  - apply keepNew_fresh_id; [apply keepNew_NoDup|apply Hfresh].
  - split.
    + intros Heq. rewrite <-Heq. apply keepNew_NoDup.
    + intros Hnd. by apply keepNew_fresh_id.
  - apply sublist_length, keepNew_sublist.
  - split; [by apply keepNew_nil_inv|by intros ->].
Qed.

(** X7: the provider never fails: it returns no question when the
    keyword has an unpaired surrogate (which [encodeURIComponent]
    rejects) and three otherwise, in particular for every keyword
    without surrogate code units.  Each question carries the requested
    source, a text that starts with the keyword and is at least 14 code
    units longer, and the search link for the encoded keyword. *)
Theorem fetchFromTavily_questions (keyword : jsstring) (src : SearchSource) :
  let questions := fetchFromTavily keyword src in
  (Uri.encodeURIComponent keyword = None → questions = [])
  ∧ (is_Some (Uri.encodeURIComponent keyword) → length questions = 3%nat)
  ∧ (Forall (λ c, Uri.isLead c = false ∧ Uri.isTrail c = false) keyword →
       length questions = 3%nat)
  ∧ Forall (λ q,
      source q = src
      ∧ keyword `prefix_of` text q
      ∧ (length keyword + 14 ≤ length (text q))%nat
      ∧ ∃ e, Uri.encodeURIComponent keyword = Some e
             ∧ url q = Some (js "https://example.com/search?q=" ++ e))
      questions.
Proof.
  intros questions. subst questions. split_and!.
  - intros He. unfold fetchFromTavily. by rewrite He.
  - apply fetchFromTavily_three.
  - intros Hk. by apply fetchFromTavily_three, encodeURIComponent_total.
  - apply Forall_forall. intros q. apply fetchFromTavily_each.
Qed.

(** X8: [fetchSearchQuestions] returns nothing for no keyword and at
    most 15 questions otherwise.  Every question comes from the provider
    for one of the given keywords: its source is google, it has a link,
    and its text starts with that keyword.  The final length filter
    removes nothing, because every text of the provider is longer than 5
    code units. *)
Theorem fetchSearchQuestions_results (toLowerCase : jsstring → jsstring)
    (seedKeywords : list SeedKeyword) (maxPerKeyword : Z) :
  let result := fetchSearchQuestions toLowerCase seedKeywords maxPerKeyword in
  (seedKeywords = [] → result = [])
  ∧ (length result ≤ 15)%nat
  ∧ Forall (λ q,
      source q = google ∧ is_Some (url q)
      ∧ ∃ keyword, keyword ∈ seedKeywords ∧ value keyword `prefix_of` text q)
      result
  ∧ result
    = dedupeQuestions toLowerCase
        (take 5 (Array_sort (λ a b, Qsign (score b - score a)) seedKeywords)
           ≫= λ keyword, fetchFromTavily (value keyword) google).
Proof.
  intros result. subst result.
  set (top := take 5 (Array_sort _ seedKeywords)).
  set (all := top ≫= λ keyword, fetchFromTavily (value keyword) google).
  assert (∀ q, q ∈ all →
            ∃ keyword, keyword ∈ seedKeywords ∧ q ∈ fetchFromTavily (value keyword) google)
    as Hall.
  { intros q (kw & Hq & Hkw)%list_elem_of_bind. exists kw. split; [|done].
    assert (kw ∈ Array_sort (λ a b, Qsign (score b - score a)) seedKeywords) as Hs.
    { eapply elem_of_sublist; [exact Hkw|apply sublist_take]. }
    by rewrite Array_sort_perm in Hs. }
  assert (fetchSearchQuestions toLowerCase seedKeywords maxPerKeyword
          = dedupeQuestions toLowerCase all) as Heq.
  { unfold fetchSearchQuestions. case_decide as Hlen.
    - apply nil_length_inv in Hlen. subst seedKeywords. done.
    - fold top. fold all. apply filter_all. apply Forall_forall. intros q Hq.
      rewrite dedupeQuestions_keepNew in Hq.
      assert (q ∈ all) as Hin.
      { eapply elem_of_sublist; [exact Hq|apply keepNew_sublist]. }
      apply Hall in Hin as (kw & _ & Hin).
      apply fetchFromTavily_each in Hin as (_ & _ & Hlen' & _). lia. }
  split_and!.
  - intros ->. done.
  - apply fetchSearchQuestions_length.
  - rewrite Heq. apply Forall_forall. intros q Hq.
    rewrite dedupeQuestions_keepNew in Hq.
    assert (q ∈ all) as Hin.
    { eapply elem_of_sublist; [exact Hq|apply keepNew_sublist]. }
    apply Hall in Hin as (kw & Hkw & Hin).
    apply fetchFromTavily_each in Hin as (Hsrc & Hpre & _ & e & _ & Hurl).
    split; [done|]. split; [by rewrite Hurl|]. by exists kw.
  - exact Heq.
Qed.

(** X9: in a run the provider is asked about the first five seed
    keywords, in the order in which [extractSeedKeywords] returned them
    (sorting them again by score changes nothing), each of them yields
    its three questions, and these, deduplicated, are the search
    questions of the run. *)
Theorem runSearchQuestions_first_five (toLowerCase : jsstring → jsstring)
    (meta : AnalysisMeta) (headings : list jsstring) (contentText : jsstring) :
  let seedKeywords := extractSeedKeywords toLowerCase meta headings contentText in
  let asked := take 5 seedKeywords in
  let allQuestions := asked ≫= λ keyword, fetchFromTavily (value keyword) google in
  Array_sort (λ a b, Qsign (score b - score a)) seedKeywords = seedKeywords
  ∧ runSearchQuestions toLowerCase meta headings contentText
    = dedupeQuestions toLowerCase allQuestions
  ∧ Forall (λ keyword, length (fetchFromTavily (value keyword) google) = 3%nat)
      seedKeywords
  ∧ length allQuestions = (3 * (5 `min` length seedKeywords))%nat.
Proof.
  intros seedKeywords asked allQuestions.
  assert (Array_sort (λ a b, Qsign (score b - score a)) seedKeywords = seedKeywords)
    as Hsort.
  { apply Array_sort_sorted, extractSeedKeywords_sorted. }
  assert (Forall (λ keyword,
            length (fetchFromTavily (value keyword) google) = 3%nat) seedKeywords)
    as Hthree.
  { apply Forall_forall. intros kw Hkw.
    apply fetchFromTavily_three, encodeURIComponent_total.
    apply extractSeedKeywords_class in Hkw.
    eapply Forall_impl; [exact Hkw|]. apply keywordClass_no_surrogate. }
  split_and!; [done| |done|].
  - unfold runSearchQuestions. fold seedKeywords.
    by rewrite fetchSearchQuestions_dedupe, Hsort.
  - unfold allQuestions. rewrite (bind_length_exact _ 3).
    + unfold asked. by rewrite length_take.
    + unfold asked. by apply Forall_take.
Qed.

(** X10: for any list of seed keywords, the keywords that
    [fetchSearchQuestions] asks about are the first five of the list
    reordered by descending score: none is invented or lost by the
    sort, every keyword that is not asked about scores at most as much
    as each one that is, and keywords of equal score keep the order of
    the input. *)
Theorem fetchSearchQuestions_top_five (seedKeywords : list SeedKeyword) :
  let sortedKeywords :=
    Array_sort (λ a b, Qsign (score b - score a)) seedKeywords in
  let topKeywords := take 5 sortedKeywords in
  sortedKeywords ≡ₚ seedKeywords
  ∧ length topKeywords = (5 `min` length seedKeywords)%nat
  ∧ StronglySorted (λ a b, (score b <= score a)%Q) sortedKeywords
  ∧ (∀ a b, a ∈ topKeywords → b ∈ drop 5 sortedKeywords → (score b <= score a)%Q)
  ∧ (∀ v, filter (λ keyword, (score keyword == v)%Q) sortedKeywords
          = filter (λ keyword, (score keyword == v)%Q) seedKeywords).
Proof.
  intros sortedKeywords topKeywords.
  assert (StronglySorted (λ a b, (score b <= score a)%Q) sortedKeywords) as Hs.
  { eapply StronglySorted_impl_elem;
      [|apply (Array_sort_descending (λ a b, Qsign (score b - score a)))].
    - intros a b _ _ Hab. by apply Qsign_le.
    - intros a b. rewrite !Qsign_le.
      destruct (Qlt_le_dec (score a) (score b)) as [Hlt|Hle]; [right|by left].
      by apply Qlt_le_weak.
    - intros a b c. rewrite !Qsign_le. intros H1 H2.
      by apply (Qle_trans _ (score b)). }
  split_and!.
  - apply Array_sort_perm.
  - unfold topKeywords, sortedKeywords. by rewrite length_take, Array_sort_length.
  - exact Hs.
  - intros a b Ha Hb. rewrite <-(take_drop 5 sortedKeywords) in Hs.
    by apply (StronglySorted_app_1_elem_of _ _ _ _ _ Hs).
  - intros v. apply Array_sort_stable. intros x y Hx Hy.
    apply Qsign_le. rewrite Hx, Hy. apply Qle_refl.
Qed.

(** X11: adding page questions never lowers the coverage ratio, whether
    they are added after or before the others, and the ratio does not
    depend on the order or the repetition of the page questions. *)
Theorem calculateQuestionCoverage_monotone (toLowerCase : jsstring → jsstring)
    (pageQuestions extra : list jsstring) (searchQuestions : list SearchQuestion) :
  let coverage pq := calculateQuestionCoverage toLowerCase pq searchQuestions in
  (coverage pageQuestions <= coverage (pageQuestions ++ extra))%Q
  ∧ (coverage pageQuestions <= coverage (extra ++ pageQuestions))%Q
  ∧ (∀ pageQuestions',
       (∀ q, q ∈ pageQuestions ↔ q ∈ pageQuestions') →
       coverage pageQuestions = coverage pageQuestions').
Proof.
  intros coverage. subst coverage. split_and!.
  - apply calculateQuestionCoverage_more. intros q Hq.
    apply elem_of_app. by left.
  - apply calculateQuestionCoverage_more. intros q Hq.
    apply elem_of_app. by right.
  - intros pq' Hsame. cbv beta. unfold calculateQuestionCoverage.
    rewrite (coveredCount_same toLowerCase pageQuestions pq'); [done|..];
      intros q; apply Hsame.
Qed.

(** X12: for a non-empty list of search questions the coverage ratio is
    1 exactly when every search question is covered and 0 exactly when
    none is. *)
Theorem calculateQuestionCoverage_extremes (toLowerCase : jsstring → jsstring)
    (pageQuestions : list jsstring) (searchQuestions : list SearchQuestion) :
  let covers sq :=
    isCovered toLowerCase (coverageTokens toLowerCase (text sq)) pageQuestions in
  let ratio := calculateQuestionCoverage toLowerCase pageQuestions searchQuestions in
  (searchQuestions ≠ [] →
     ((ratio == 1)%Q ↔ Forall (λ sq, covers sq = true) searchQuestions))
  ∧ (searchQuestions ≠ [] →
       ((ratio == 0)%Q ↔ Forall (λ sq, covers sq = false) searchQuestions)).
Proof.
  intros covers ratio. subst ratio. unfold calculateQuestionCoverage.
  split; intros Hne.
  - rewrite decide_False by (by destruct searchQuestions).
    rewrite ratio_eq_one by (destruct searchQuestions; [done|simpl; lia]).
    rewrite coveredCount_filter, Nat2Z.inj_iff. apply filter_length_all.
  - rewrite decide_False by (by destruct searchQuestions).
    rewrite ratio_eq_zero by (destruct searchQuestions; [done|simpl; lia]).
    rewrite coveredCount_filter.
    change 0%Z with (Z.of_nat 0). rewrite Nat2Z.inj_iff, filter_length_none.
    apply Forall_iff. intros sq. fold (covers sq). by destruct (covers sq).
Qed.

(** X13: in every run the structure score lies between 40 and 80, the
    coverage percentage between 0 and 100 and the final score between 16
    and 92, in exact arithmetic and in binary64 arithmetic alike. *)
Theorem runScores_range (toLowerCase : jsstring → jsstring)
    (meta : AnalysisMeta) (headings : list jsstring) (contentText : jsstring)
    (pageQuestions : list jsstring) :
  let scores := runScores toLowerCase meta headings contentText pageQuestions in
  (40 ≤ structureScore scores ≤ 80)%Z
  ∧ (0 <= questionCoverage scores)%Q ∧ (questionCoverage scores <= 100)%Q
  ∧ (16 ≤ finalScore scores ≤ 92)%Z
  ∧ ∃ n, runFinalScore64 toLowerCase meta headings contentText pageQuestions = Some n
         ∧ (16 ≤ n ≤ 92)%Z.
Proof.
  intros scores. subst scores. unfold runScores.
  set (sq := runSearchQuestions toLowerCase meta headings contentText).
  pose proof (calculateStructureScore_range meta headings pageQuestions) as Hs.
  pose proof (calculateQuestionCoverage_bounds toLowerCase pageQuestions sq)
    as [Hr0 Hr1].
  destruct (composeScores_range _ _ Hs Hr0 Hr1) as (Hq0 & Hq1 & Hf).
  split; [exact Hs|]. split; [exact Hq0|]. split; [exact Hq1|].
  split; [exact Hf|].
  eexists. split; [apply runFinalScore64_exact|]. exact Hf.
Qed.

(** X14: with the same page and the same search questions, more page
    questions never lower the structure score, the coverage percentage
    or the final score. *)
Theorem runScores_more_page_questions (toLowerCase : jsstring → jsstring)
    (meta : AnalysisMeta) (headings : list jsstring) (contentText : jsstring)
    (pageQuestions extra : list jsstring) :
  let before := runScores toLowerCase meta headings contentText pageQuestions in
  let after :=
    runScores toLowerCase meta headings contentText (pageQuestions ++ extra) in
  (structureScore before ≤ structureScore after)%Z
  ∧ (questionCoverage before <= questionCoverage after)%Q
  ∧ (finalScore before ≤ finalScore after)%Z.
Proof.
  intros before after. subst before after. unfold runScores.
  set (sq := runSearchQuestions toLowerCase meta headings contentText).
  pose proof (calculateStructureScore_more meta headings pageQuestions extra) as Hs.
  assert (calculateQuestionCoverage toLowerCase pageQuestions sq
          <= calculateQuestionCoverage toLowerCase (pageQuestions ++ extra) sq)%Q
    as Hr.
  { apply calculateQuestionCoverage_more. intros q Hq. apply elem_of_app. by left. }
  split_and!.
  - done.
  - simpl. lra.
  - by apply composeScores_mono.
Qed.

(** X15: the two question detectors agree up to their length
    thresholds.  The candidates of [extractQuestionCandidatesFromText]
    are the trimmed sentences longer than 5 code units that look like a
    question, in order, each with the given source and link; the page
    questions of [extractQuestions] are the texts of the candidates that
    are longer than 10 code units. *)
Theorem extractQuestions_candidates (page : jsstring) (src : SearchSource)
    (link : option jsstring) :
  let candidates := extractQuestionCandidatesFromText page src link in
  text <$> candidates
  = filter (λ s, (5 < length s)%nat ∧ looksLikeQuestion s = true)
      (trim <$> split_sentences page)
  ∧ Forall (λ q, source q = src ∧ url q = link) candidates
  ∧ extractQuestions page = filter (λ s, (10 < length s)%nat) (text <$> candidates).
Proof.
  intros candidates. subst candidates.
  rewrite extractQuestionCandidatesFromText_filter.
  set (sentences := trim <$> split_sentences page).
  assert (text <$> ((λ s, {| source := src; text := s; url := link |})
                     <$> filter (λ s, (5 < length s)%nat ∧ looksLikeQuestion s = true)
                           sentences)
          = filter (λ s, (5 < length s)%nat ∧ looksLikeQuestion s = true) sentences)
    as Htexts.
  { rewrite <-list_fmap_compose. apply list_fmap_id. }
  split_and!.
  - exact Htexts.
  - apply Forall_fmap, Forall_forall. by intros s _.
  - rewrite Htexts, extractQuestions_filter. fold sentences.
    rewrite !list_filter_filter. apply list_filter_iff. intros s.
    destruct (looksLikeQuestion s); intuition lia.
Qed.

(** X16: every page question is a substring of the text, is trimmed, is
    longer than 10 code units, contains a question mark or one of the
    cue words, and contains no sentence separator: in particular a
    question mark inside it is never followed by whitespace. *)
Theorem extractQuestions_sentences (page : jsstring) :
  Forall (λ q,
      infix q page
      ∧ trim q = q
      ∧ (10 < length q)%nat
      ∧ (0x3F ∈ q ∨ ∃ keyword, keyword ∈ questionKeywords ∧ infix keyword q)
      ∧ ∀ l c w r, q = l ++ c :: w :: r →
          isTerminator c = true → isWhiteSpace w = false)
    (extractQuestions page).
Proof.
  rewrite extractQuestions_filter. apply Forall_forall. intros q.
  rewrite !list_elem_of_filter. intros (Hlooks & Hlen & Hq).
  apply trimmed_sentence in Hq as (Htrim & Hsep & Hinf).
  split_and!; try done.
  - by apply looksLikeQuestion_spec.
  - intros l c w r. by apply hasSeparator_false.
Qed.

(** X17: a text in which no terminator is followed by whitespace is a
    single sentence: it yields its trimmed self as the only page
    question when that is longer than 10 code units and looks like a
    question, and nothing otherwise. *)
Theorem extractQuestions_one_sentence (page : jsstring)
    (Hsep : hasSeparator page = false) :
  extractQuestions page
  = if bool_decide (10 < length (trim page))%nat && looksLikeQuestion (trim page)
    then [trim page] else [].
Proof.
  rewrite extractQuestions_filter, split_sentences_single by done.
  change (trim <$> [page]) with [trim page].
  rewrite !filter_cons, !filter_nil.
  case_decide as Hlen.
  - rewrite bool_decide_eq_true_2 by done. simpl.
    rewrite filter_cons, filter_nil.
    destruct (looksLikeQuestion (trim page)); by case_decide.
  - rewrite bool_decide_eq_false_2 by done. done.
Qed.

Lemma extractQuestions_one_sentence_witness :
  hasSeparator (js "  How much does it cost?") = false
  ∧ extractQuestions (js "  How much does it cost?")
    = [js "How much does it cost?"].
Proof.
  split.
  - vm_compute. reflexivity.
  - rewrite (extractQuestions_one_sentence (js "  How much does it cost?"));
      vm_compute; reflexivity.
Defined.

(** X18: the sentence split consumes a question mark that is followed by
    whitespace.  So a text in which every question mark is followed by
    whitespace, and in which no cue word occurs, yields no page question
    and no candidate, however many questions it asks. *)
Theorem extractQuestions_marks_consumed (page : jsstring)
    (src : SearchSource) (link : option jsstring)
    (Hmarks : marksSpaced page = true)
    (Hcues : existsb (λ keyword, includesStr page keyword) questionKeywords = false) :
  extractQuestions page = []
  ∧ extractQuestionCandidatesFromText page src link = [].
Proof.
  assert (Forall (λ s, looksLikeQuestion s = false) (trim <$> split_sentences page))
    as Hnone.
  { apply Forall_fmap, Forall_forall. intros p Hp. simpl.
    destruct (looksLikeQuestion (trim p)) eqn:E; [exfalso|done].
    apply looksLikeQuestion_spec in E as [Hq|(k & Hk & Hinf)].
    - pose proof (split_sentences_from_marks false page Hmarks) as Hm.
      rewrite Forall_forall in Hm. apply (Hm p Hp).
      eapply infix_elem; [apply trim_infix|done].
    - apply split_sentences_pieces in Hp as [_ Hp].
      assert (includesStr page k = true) as Hinc.
      { apply includesStr_spec.
        eapply infix_trans; [exact Hinf|].
        eapply infix_trans; [apply trim_infix|done]. }
      assert (existsb (λ keyword, includesStr page keyword) questionKeywords = true)
        as Hex; [|congruence].
      apply existsb_exists. exists k. split; [by apply list_elem_of_In|done]. }
  assert (∀ P : jsstring → Prop, ∀ Hdec : ∀ x, Decision (P x),
            filter (λ s, P s ∧ looksLikeQuestion s = true)
              (trim <$> split_sentences page) = []) as Hfil.
  { intros P Hdec. induction Hnone as [|s l Hs _ IH]; [done|].
    rewrite filter_cons_False; [done|]. intros [_ ?]. congruence. }
  split.
  - rewrite extractQuestions_filter, list_filter_filter.
    rewrite <-(Hfil (λ s, (10 < length s)%nat) _).
    apply list_filter_iff. intros s. tauto.
  - rewrite extractQuestionCandidatesFromText_filter.
    by rewrite (Hfil (λ s, (5 < length s)%nat) _).
Qed.

Lemma extractQuestions_marks_consumed_witness :
  marksSpaced (js "What is this thing? It is good. Is it really new? Yes.") = true
  ∧ existsb (λ keyword,
       includesStr (js "What is this thing? It is good. Is it really new? Yes.")
         keyword) questionKeywords = false
  ∧ extractQuestions (js "What is this thing? It is good. Is it really new? Yes.")
    = [].
Proof.
  split; [vm_compute; reflexivity|]. split; [vm_compute; reflexivity|].
  apply (extractQuestions_marks_consumed _ google None);
    vm_compute; reflexivity.
Defined.

(** X19: what [extractMetaAndContent] hands on.  Every meta field is
    [null] or a non-empty string without surrounding whitespace; every
    heading is non-empty and trimmed; the content text has at most 5000
    code units, starts with no whitespace, and its only whitespace is
    single spaces; every page question is a substring of the content
    text, so it too has no other whitespace than single spaces. *)
Theorem extractMetaAndContent_shape (dom : Dom) :
  let page := extractMetaAndContent dom in
  Forall (λ field, ∀ s, field = Some s → s ≠ [] ∧ trim s = s)
    (metaFields (ex_meta page))
  ∧ Forall (λ heading, heading ≠ [] ∧ trim heading = heading) (ex_headings page)
  ∧ (length (ex_contentText page) ≤ 5000)%nat
  ∧ (∀ c, head (ex_contentText page) = Some c → isWhiteSpace c = false)
  ∧ singleSpaced (ex_contentText page) = true
  ∧ Forall (λ q, infix q (ex_contentText page) ∧ singleSpaced q = true)
      (ex_pageQuestions page).
Proof.
  intros page. subst page. unfold extractMetaAndContent.
  cbn [ex_meta ex_headings ex_contentText ex_pageQuestions].
  set (bodyText := trim (replace_runs isWhiteSpace (dom_body dom))).
  assert (singleSpaced (take 5000 bodyText) = true) as Hspaced.
  { apply (singleSpaced_infix _ bodyText); [apply take_is_infix|].
    apply (singleSpaced_infix _ (replace_runs isWhiteSpace (dom_body dom)));
      [apply trim_infix|apply replace_runs_singleSpaced]. }
  split_and!.
  - unfold metaFields.
    cbn [title description keywords ogTitle ogDescription canonical].
    repeat apply Forall_cons_2; try apply Forall_nil_2; intros s;
      first [apply orNull_trimmed | apply trimmedOrNull_trimmed].
  - apply Forall_forall. intros h. rewrite list_elem_of_filter.
    intros [Hne (x & -> & _)%list_elem_of_fmap]. split; [done|apply trim_idemp].
  - rewrite length_take. lia.
  - intros c Hc. apply (trim_head (replace_runs isWhiteSpace (dom_body dom))).
    fold bodyText. destruct bodyText; [done|exact Hc].
  - exact Hspaced.
  - rewrite extractQuestions_filter. apply Forall_forall. intros q.
    rewrite !list_elem_of_filter. intros (_ & _ & Hq).
    apply trimmed_sentence in Hq as (_ & _ & Hinf).
    split; [done|]. by apply (singleSpaced_infix _ _ Hinf).
Qed.

(** X20: the structure score of an extracted page, read off the
    document: 40, plus 10 for a title that is not blank, 10 for a
    description whose content attribute is present and not blank, 10 for
    two or more headings that are not blank, and 10 for three or more
    page questions.  The meta keywords, the Open Graph fields and the
    canonical link do not matter. *)
Theorem calculateStructureScore_extracted (dom : Dom) :
  let page := extractMetaAndContent dom in
  let points (b : bool) := if b then 10%Z else 0%Z in
  calculateStructureScore (ex_meta page) (ex_headings page) (ex_pageQuestions page)
  = (40
     + points (bool_decide (trim (dom_title dom) ≠ []))
     + points (match dom_description dom with
               | Some s => bool_decide (trim s ≠ [])
               | None => false
               end)
     + points (bool_decide
                 (2 ≤ length (filter (λ h, trim h ≠ []) (dom_headings dom)))%nat)
     + points (bool_decide (3 ≤ length (ex_pageQuestions page))%nat))%Z.
Proof.
  intros page points. subst page points.
  unfold calculateStructureScore, extractMetaAndContent.
  cbn [ex_meta ex_headings ex_pageQuestions title description].
  rewrite presentNonBlank_orNull, presentNonBlank_trimmedOrNull.
  rewrite filter_fmap_length.
  destruct (bool_decide (trim (dom_title dom) ≠ []));
    destruct (match dom_description dom with
              | Some s => bool_decide (trim s ≠ [])
              | None => false
              end);
    repeat case_decide; repeat case_bool_decide; try lia; try done.
Qed.

(** X21: the two passes over the query parameters of [normalizeUrl]
    (collect the keys that start with [utm_], then delete each of them)
    keep exactly the parameters whose key does not start with [utm_], in
    their order and with their repetitions, whatever the platform's URL
    parser is.  The query is written back from the kept parameters even
    when none was removed. *)
Theorem normalizeUrl_utm `{UrlPlatform} (url : jsstring) (parsed : URL)
    (Hparsed : URL_new url = Some parsed) :
  let secured := URL_set_protocol parsed (js "https:") in
  let hostname := URL_hostname secured in
  let hosted :=
    URL_set_hostname secured
      (if startsWith hostname (js "www.") then drop 4 hostname else hostname) in
  let kept :=
    filter (λ p, startsWith p.1 (js "utm_") = false)
      (URLSearchParams_new (URL_search hosted)) in
  let urlObj := URL_set_search hosted (URLSearchParams_toString kept) in
  let normalized := URL_toString urlObj in
  normalizeUrl url
  = if endsWith normalized (js "/") && bool_decide (URL_pathname urlObj ≠ js "/")
    then take (length normalized - 1) normalized
    else normalized.
Proof.
  intros secured hostname hosted kept urlObj normalized.
  unfold normalizeUrl. rewrite Hparsed. fold secured hostname hosted.
  rewrite delete_loop.
  assert (filter (λ p : jsstring * jsstring,
                    p.1 ∉ filter (λ key, startsWith key (js "utm_"))
                            (URLSearchParams_new (URL_search hosted)).*1)
            (URLSearchParams_new (URL_search hosted)) = kept) as ->; [|done].
  apply filter_iff_elem. apply Forall_forall. intros p Hp.
  rewrite list_elem_of_filter. split.
  - intros Hn. destruct (startsWith p.1 (js "utm_")) eqn:E; [|done].
    destruct Hn. split; [by apply Is_true_true|].
    apply list_elem_of_fmap. by exists p.
  - intros E [Hs _]. apply Is_true_true in Hs. congruence.
Qed.

Lemma normalizeUrl_utm_witness :
  ∃ parsed,
    Whatwg.parse (js "http://www.example.com/a?utm_source=x&b=1&utm_medium=y&b=2")
    = Some parsed
    ∧ normalizeUrl (H := Whatwg.platform)
        (js "http://www.example.com/a?utm_source=x&b=1&utm_medium=y&b=2")
      = js "https://example.com/a?b=1&b=2".
Proof.
  set (parsed :=
    {| Whatwg.scheme := js "http"; Whatwg.host := js "www.example.com";
       Whatwg.path := [js "a"];
       Whatwg.query := Some (js "utm_source=x&b=1&utm_medium=y&b=2");
       Whatwg.fragment := None |}).
  assert (Whatwg.parse (js "http://www.example.com/a?utm_source=x&b=1&utm_medium=y&b=2")
          = Some parsed) as Hparsed by (vm_compute; reflexivity).
  exists parsed. split; [exact Hparsed|].
  rewrite (normalizeUrl_utm (H := Whatwg.platform) _ parsed Hparsed).
  vm_compute. reflexivity.
Defined.

(** X22: on the plain URLs of the model, [normalizeUrl] answers an
    [https://] URL for every input that parses, whatever its scheme
    was. *)
Theorem normalizeUrl_https (url : jsstring) (parsed : Whatwg.UrlRecord)
    (Hparsed : Whatwg.parse url = Some parsed) :
  ∃ rest, normalizeUrl (H := Whatwg.platform) url = js "https://" ++ rest.
Proof.
  unfold normalizeUrl. cbn [URL_new Whatwg.platform]. rewrite Hparsed.
  cbn [URL_set_protocol URL_hostname URL_set_hostname URL_search URL_set_search
       URL_pathname URL_toString URLSearchParams_new URLSearchParams_toString
       Whatwg.platform].
  set (secured := Whatwg.set_protocol parsed (js "https:")).
  set (hosted := Whatwg.set_hostname secured _).
  set (urlObj := Whatwg.set_search hosted _).
  assert (Whatwg.scheme urlObj = js "https" ∧ Whatwg.host urlObj ≠ []) as [Hs Hh].
  { destruct (set_protocol_https parsed) as [Hs Hh].
    apply parse_host in Hparsed. fold secured in Hs, Hh.
    split.
    - change (Whatwg.scheme urlObj) with (Whatwg.scheme hosted).
      subst hosted. by rewrite (proj1 (set_hostname_keeps _ _)).
    - change (Whatwg.host urlObj) with (Whatwg.host hosted).
      subst hosted. apply set_hostname_keeps. by rewrite Hh. }
  destruct (toString_scheme urlObj Hh) as (c & rest & Hn).
  rewrite Hs in Hn. rewrite Hn.
  change (js "https" ++ js "://" ++ c :: rest) with (js "https://" ++ c :: rest).
  destruct (_ && _); [|by eexists].
  rewrite take_app_ge; [by eexists|].
  rewrite length_app. simpl. lia.
Qed.

Lemma normalizeUrl_https_witness :
  ∃ parsed,
    Whatwg.parse (js "ws://www.example.com/chat/") = Some parsed
    ∧ ∃ rest,
        normalizeUrl (H := Whatwg.platform) (js "ws://www.example.com/chat/")
        = js "https://" ++ rest.
Proof.
  set (parsed :=
    {| Whatwg.scheme := js "ws"; Whatwg.host := js "www.example.com";
       Whatwg.path := [js "chat"; []];
       Whatwg.query := None; Whatwg.fragment := None |}).
  assert (Whatwg.parse (js "ws://www.example.com/chat/") = Some parsed)
    as Hparsed by (vm_compute; reflexivity).
  exists parsed. split; [exact Hparsed|].
  exact (normalizeUrl_https (js "ws://www.example.com/chat/") parsed Hparsed).
Defined.

(** X23: [runAnalysis] fails only when fetching the page fails.
    Otherwise its result has at most 10 seed keywords and at most 15
    search questions, all attributed to google, no question cluster, a
    structure score between 40 and 80 and a final score between 16 and
    92, and its page questions are substrings of the first 5000 code
    units of the page text. *)
Theorem runAnalysis_result `{UrlPlatform} (toLowerCase : jsstring → jsstring)
    (fetchHtml : jsstring → option Dom) (url : jsstring) :
  match runAnalysis toLowerCase fetchHtml extractMetaAndContent url with
  | None => fetchHtml url = None
  | Some result =>
    (∃ dom, fetchHtml url = Some dom
       ∧ Forall (λ q, infix q (ex_contentText (extractMetaAndContent dom)))
           (res_pageQuestions result))
    ∧ (length (res_seedKeywords result) ≤ 10)%nat
    ∧ (length (res_searchQuestions result) ≤ 15)%nat
    ∧ Forall (λ q, source q = google) (res_searchQuestions result)
    ∧ res_questionClusters result = []
    ∧ (40 ≤ structureScore (res_scores result) ≤ 80)%Z
    ∧ (16 ≤ finalScore (res_scores result) ≤ 92)%Z
  end.
Proof.
  unfold runAnalysis. destruct (fetchHtml url) as [dom|]; [|done].
  cbn [res_seedKeywords res_searchQuestions res_questionClusters res_scores
       res_pageQuestions].
  set (page := extractMetaAndContent dom).
  refine (conj _ (conj _ (conj _ (conj _ (conj _ (conj _ _)))))).
  - exists dom. split; [done|]. apply extractMetaAndContent_questions.
  - destruct (extractSeedKeywords_cases toLowerCase (ex_meta page) (ex_headings page)
                (ex_contentText page)) as [[-> _]|[-> _]]; [simpl; lia|].
    rewrite rankEntries_count. lia.
  - apply fetchSearchQuestions_length.
  - destruct (fetchSearchQuestions_shape toLowerCase
                (extractSeedKeywords toLowerCase (ex_meta page) (ex_headings page)
                   (ex_contentText page)) 5) as (top & Htop & ->).
    apply Forall_forall. intros q Hq.
    apply list_elem_of_filter in Hq as [_ Hq].
    rewrite dedupeQuestions_keepNew in Hq.
    assert (q ∈ top ≫= λ keyword, fetchFromTavily (value keyword) google) as Hin.
    { eapply elem_of_sublist; [exact Hq|apply keepNew_sublist]. }
    apply list_elem_of_bind in Hin as (kw & Hin & _).
    by apply fetchFromTavily_each in Hin as (Hsrc & _).
  - done.
  - apply calculateStructureScore_range.
  - eapply composeScores_range;
      [apply calculateStructureScore_range
      |apply calculateQuestionCoverage_bounds..].
Qed.
